(** * Consensus ADMM with spectral step sizes: [cvxconsensus/consensus.py]

    The development embeds the step-size adapter ([step_ls], [step_cor],
    [step_safe], [step_spec]), the aggregator ([x_average]), the stopping
    evaluator ([res_stop]) and the body of the worker loop ([run_worker])
    and proves their specification.  It also embeds the initial step
    sizes ([assign_rho]), the state that [prox_step] builds for a worker,
    and the loop of the coordinator ([consensus]) as a function of the
    messages it receives.  The cvxpy problem that a worker solves, the
    processes and the pipes are outside the model: a solve is any change
    of the values of the variables.

    Numbers.  The program computes with binary64 floats.  They are
    idealised: a finite float is a real number (no rounding, no overflow,
    no signed zero), and the three special values of IEEE arithmetic are
    kept, because numpy produces them instead of raising: dividing a numpy
    float by zero yields an infinity or a NaN.  A division between plain
    Python floats raises [ZeroDivisionError] instead.

    Arrays.  An array is the list of its components.  Arrays that are
    combined elementwise belong to one variable and have its shape, and the
    operations pair their components; numpy rejects or broadcasts other
    shapes.  Over the reals the order in which [np.sum] adds is immaterial.

    Dictionaries are finite maps; the order of their keys is not modelled,
    except for the variables of a worker, which are listed in the order of
    the loop over them.

    Sharing.  The only array that the program updates in place is the one
    of the parameter [y] (with [+=]); every other array is replaced as a
    whole and is modelled by its value.  The sharing of the array of [y] is
    modelled explicitly, see [options]. *)

From Stdlib Require Import Reals Lra Lia ZArith.
From stdpp Require Import gmap.

Local Open Scope R_scope.

(** ** Idealised floats *)

Inductive xreal : Type :=
  | Fin (r : R)
  | PInf
  | NInf
  | NaN.

Definition Rltb (a b : R) : bool := if Rlt_dec a b then true else false.
Definition Rleb (a b : R) : bool := if Rle_dec a b then true else false.

Definition xopp (a : xreal) : xreal :=
  match a with
  | Fin x => Fin (- x)
  | PInf => NInf
  | NInf => PInf
  | NaN => NaN
  end.

Definition xadd (a b : xreal) : xreal :=
  match a, b with
  | NaN, _ | _, NaN => NaN
  | Fin x, Fin y => Fin (x + y)
  | PInf, NInf | NInf, PInf => NaN
  | PInf, _ | _, PInf => PInf
  | NInf, _ | _, NInf => NInf
  end.

Definition xsub (a b : xreal) : xreal := xadd a (xopp b).

(** The infinity that a nonzero finite factor [x] turns [PInf] into. *)
Definition inf_of_sign (x : R) : xreal :=
  if Rlt_dec 0 x then PInf else if Rlt_dec x 0 then NInf else NaN.

Definition xmul (a b : xreal) : xreal :=
  match a, b with
  | NaN, _ | _, NaN => NaN
  | Fin x, Fin y => Fin (x * y)
  | Fin x, PInf | PInf, Fin x => inf_of_sign x
  | Fin x, NInf | NInf, Fin x => xopp (inf_of_sign x)
  | PInf, PInf | NInf, NInf => PInf
  | PInf, NInf | NInf, PInf => NInf
  end.

(** numpy division: a zero divisor gives an infinity of the sign of the
    dividend, or NaN for 0/0. *)
Definition xdiv (a b : xreal) : xreal :=
  match a, b with
  | NaN, _ | _, NaN => NaN
  | Fin x, Fin y => if Req_dec_T y 0 then inf_of_sign x else Fin (x / y)
  | Fin _, (PInf | NInf) => Fin 0
  | PInf, Fin y => if Rlt_dec y 0 then NInf else PInf
  | NInf, Fin y => if Rlt_dec y 0 then PInf else NInf
  | (PInf | NInf), (PInf | NInf) => NaN
  end.

Definition xsqrt (a : xreal) : xreal :=
  match a with
  | Fin x => if Rlt_dec x 0 then NaN else Fin (sqrt x)
  | PInf => PInf
  | NInf | NaN => NaN
  end.

(** Comparisons: every comparison with NaN is false. *)
Definition xltb (a b : xreal) : bool :=
  match a, b with
  | NaN, _ | _, NaN => false
  | Fin x, Fin y => Rltb x y
  | _, NInf => false
  | NInf, _ => true
  | PInf, _ => false
  | Fin _, PInf => true
  end.

Definition xleb (a b : xreal) : bool :=
  match a, b with
  | NaN, _ | _, NaN => false
  | Fin x, Fin y => Rleb x y
  | NInf, _ => true
  | _, PInf => true
  | PInf, _ => false
  | Fin _, NInf => false
  end.

Definition xgtb (a b : xreal) : bool := xltb b a.

(** Python's builtin [min(a, b)] keeps [a] unless [b < a]; [max(a, b)] keeps
    [a] unless [b > a]. *)
Definition pymin (a b : xreal) : xreal := if xltb b a then b else a.
Definition pymax (a b : xreal) : xreal := if xgtb b a then b else a.

Definition pymaxR (a b : R) : R := if Rlt_dec a b then b else a.

(** [np.finfo(float).eps] *)
Definition eps_fl : R := / IZR (2 ^ 52).

(** ** Exceptions and the division log *)

Inductive exn : Type :=
  | ZeroDivisionError
  | KeyError
  | TypeError
  | ValueError
  | RuntimeError_infeasible.

Inductive result (A : Type) : Type :=
  | Ok (a : A)
  | Raise (e : exn).
Arguments Ok {A} a.
Arguments Raise {A} e.

(** A numpy division whose divisor is zero raises nothing; it is recorded,
    with its dividend. *)
Inductive event : Type :=
  | DivByZero (dividend : R).

Definition M (A : Type) : Type := (list event * result A)%type.

Definition ret {A} (a : A) : M A := ([], Ok a).
Definition raise {A} (e : exn) : M A := ([], Raise e).
Definition bind {A B} (m : M A) (f : A -> M B) : M B :=
  match m with
  | (l, Ok a) => let '(l', r) := f a in (l ++ l', r)
  | (l, Raise e) => (l, Raise e)
  end.

Notation "'do' x <- m ; k" := (bind m (fun x => k))
  (at level 10, x name, m at level 100, k at level 200).

Definition outcome {A} (m : M A) : result A := snd m.

Definition np_div (a b : R) : M xreal :=
  (if Req_dec_T b 0 then [DivByZero a] else [], Ok (xdiv (Fin a) (Fin b))).

(** ** Arrays *)

(** A numpy array, flattened. *)
Definition vec : Type := list R.

Definition same_shape (p d : vec) : Prop := length p = length d.

Definition vmul (p d : vec) : vec := zip_with Rmult p d.
Definition vadd (p d : vec) : vec := zip_with Rplus p d.
Definition vsub (p d : vec) : vec := zip_with Rminus p d.
Definition vneg (p : vec) : vec := map Ropp p.
Definition vscale (r : R) (p : vec) : vec := map (Rmult r) p.
Definition vsquare (p : vec) : vec := map (fun x => x * x) p.
Definition np_sum (p : vec) : R := foldr Rplus 0 p.
Definition norm (p : vec) : R := sqrt (np_sum (vsquare p)).

(** ** The spectral step size *)

(** [step_ls] (lines 45-66): both quotients are numpy divisions. *)
Definition step_ls (p d : vec) : M xreal :=
  do sd <- np_div (np_sum (vsquare d)) (np_sum (vmul p d));
  do mg <- np_div (np_sum (vmul p d)) (np_sum (vsquare p));
  if xgtb (xmul (Fin 2) mg) sd then ret mg
  else ret (xsub sd (xdiv mg (Fin 2))).

(** [step_cor] (lines 68-83) *)
Definition step_cor (p d : vec) : M xreal :=
  np_div (np_sum (vmul p d)) (norm p * norm d).

(** [step_safe] (lines 85-110) *)
Definition step_safe (rho : R) (a b a_cor b_cor : xreal) (eps : R) : xreal :=
  if xgtb a_cor (Fin eps) && xgtb b_cor (Fin eps) then xsqrt (xmul a b)
  else if xgtb a_cor (Fin eps) && xleb b_cor (Fin eps) then a
  else if xleb a_cor (Fin eps) && xgtb b_cor (Fin eps) then b
  else Fin rho.

(** [C/(1.0*k**2)] and [rho/scale] divide Python floats. *)
Definition py_div (a b : R) : M R :=
  if Req_dec_T b 0 then raise ZeroDivisionError else ret (a / b).

(** The guard of [step_spec] (lines 142-143). *)
Definition small_norm (dx dxbar dy dyhat : vec) : bool :=
  Rleb (np_sum (vsquare dx)) eps_fl || Rleb (np_sum (vsquare dxbar)) eps_fl ||
  Rleb (np_sum (vsquare dy)) eps_fl || Rleb (np_sum (vsquare dyhat)) eps_fl.

(** [step_spec] (lines 112-157) *)
Definition step_spec (rho : R) (k : Z) (dx dxbar dy dyhat : vec)
    (eps C : R) : M xreal :=
  if small_norm dx dxbar dy dyhat then ret (Fin rho)
  else
    do a_hat <- step_ls dx dyhat;
    do b_hat <- step_ls dxbar dy;
    do a_cor <- step_cor dx dyhat;
    do b_cor <- step_cor dxbar dy;
    do q <- py_div C (1 * IZR (k ^ 2));
    let scale := 1 + q in
    let rho_hat := step_safe rho a_hat b_hat a_cor b_cor eps in
    do lo <- py_div rho scale;
    ret (pymax (pymin rho_hat (Fin (scale * rho))) (Fin lo)).

(** ** The stopping evaluator *)

(** One worker's residual report: the dictionary with keys ["primal"],
    ["dual"], ["x"], ["xbar"], ["y"] built at the start of each round. *)
Record residual_report : Type := {
  r_primal : R;
  r_dual : R;
  r_x : R;
  r_xbar : R;
  r_y : R;
}.

(** [res_stop] (lines 222-238) *)
Definition res_stop (res_ssq : list residual_report) (eps : R)
    : R * R * bool :=
  let primal := np_sum (map r_primal res_ssq) in
  let dual := np_sum (map r_dual res_ssq) in
  let x_ssq := np_sum (map r_x res_ssq) in
  let xbar_ssq := np_sum (map r_xbar res_ssq) in
  let u_ssq := np_sum (map r_y res_ssq) in
  let stopped :=
    Rleb primal (eps * pymaxR x_ssq xbar_ssq + eps_fl) &&
    Rleb dual (eps * u_ssq + eps_fl) in
  (primal, dual, stopped).

(** ** The aggregator *)

(** Modelled from the spec: the statuses of the local solver, which the
    cvxpy library defines and section 6 of the specification lists. *)
Inductive status : Type :=
  | optimal
  | infeasible
  | unbounded
  | solver_error.

Global Instance status_eq_dec : EqDecision status.
Proof. solve_decision. Defined.

(** Modelled from the spec: cvxpy's [INF_OR_UNB], the statuses that the
    specification calls infeasible or unbounded. *)
Definition INF_OR_UNB : list status := [infeasible; unbounded].

(** A worker's message [(prox.status, rvals, xvals)]. *)
Definition report : Type := status * gmap Z R * gmap Z vec.

(** [xmerge] and [rho_sum], the two [defaultdict]s. *)
Definition merged : Type := gmap Z (list vec) * gmap Z R.

(** The body of the inner loop, for one item of [xvals]. *)
Definition merge_item (rho : gmap Z R) (key : Z) (value : vec)
    (acc : result merged) : result merged :=
  match acc with
  | Raise e => Raise e
  | Ok (xmerge, rho_sum) =>
      match rho !! key with
      | None => Raise KeyError
      | Some r =>
          Ok (<[key := default [] (xmerge !! key) ++ [vscale r value]]> xmerge,
              <[key := default 0 (rho_sum !! key) + r]> rho_sum)
      end
  end.

(** The body of the outer loop, for one report. *)
Definition merge_report (acc : result merged) (r : report) : result merged :=
  match acc with
  | Raise e => Raise e
  | Ok a =>
      let '(st, rho, xvals) := r in
      if bool_decide (st ∈ INF_OR_UNB) then Raise RuntimeError_infeasible
      else map_fold (merge_item rho) (Ok a) xvals
  end.

(** [np.sum(np.array(xlist), axis = 0)] *)
Definition colsum (xlist : list vec) : vec :=
  match xlist with
  | [] => []
  | x :: rest => foldl vadd x rest
  end.

(** [x_average] (lines 203-220); the final division is numpy's. *)
Definition x_average (prox_res : list report) : result (gmap Z (list xreal)) :=
  match foldl merge_report (@Ok merged (∅, ∅)) prox_res with
  | Raise e => Raise e
  | Ok (xmerge, rho_sum) =>
      Ok (map_imap (fun key xlist =>
            Some (map (fun s => xdiv (Fin s) (Fin (default 0 (rho_sum !! key))))
                      (colsum xlist))) xmerge)
  end.

(** The reports that contain [key], as pairs of step size and value. *)
Definition reported (key : Z) (prox_res : list report) : list (R * vec) :=
  omap (fun r : report =>
          let '(st, rho, xvals) := r in
          match xvals !! key, rho !! key with
          | Some v, Some s => Some (s, v)
          | _, _ => None
          end) prox_res.

(** Every variable that a report gives a value for has a step size in it. *)
Definition covered (r : report) : Prop :=
  let '(st, rho, xvals) := r in
  forall key, is_Some (xvals !! key) -> is_Some (rho !! key).

(** The step sizes of a report are positive. *)
Definition positive_steps (r : report) : Prop :=
  let '(st, rho, xvals) := r in
  forall key s, rho !! key = Some s -> 0 < s.

Definition reports_key (key : Z) (r : report) : Prop :=
  let '(st, rho, xvals) := r in is_Some (xvals !! key).

(** The two averages, as the specification writes them. *)
Definition weighted_average (l : list (R * vec)) : list xreal :=
  map (fun s => Fin (s / np_sum (map fst l)))
      (colsum (map (fun sv => vscale (fst sv) (snd sv)) l)).

Definition mean (xs : list vec) : list xreal :=
  map (fun s => Fin (s / INR (length xs))) (colsum xs).

Definition feasible (r : report) : Prop :=
  let '(st, rho, xvals) := r in st ∉ INF_OR_UNB.

Definition inf_or_unb (r : report) : Prop :=
  let '(st, rho, xvals) := r in st ∈ INF_OR_UNB.

(** The accumulators after the reports [rs] have been merged. *)
Definition merged_ok (acc : merged) (rs : list report) : Prop :=
  forall key,
    fst acc !! key =
      match reported key rs with
      | [] => None
      | l => Some (map (fun sv => vscale (fst sv) (snd sv)) l)
      end /\
    snd acc !! key =
      match reported key rs with
      | [] => None
      | l => Some (np_sum (map fst l))
      end.

(** Two workers share variable 7 with step size 1 and report 5 and 1. *)
Definition two_workers : list report :=
  [(optimal, {[7%Z := 1]}, {[7%Z := [5]]});
   (optimal, {[7%Z := 1]}, {[7%Z := [1]]})].

(** ** The worker *)

(** The value that [v[key]["yhat"]] is bound to on an adaptation round:
    the cvxpy expression [y_old + rho*(x - xbar_old)].  The two arrays are
    fixed when the expression is built; [rho] is a parameter and [x] a
    variable, read again each time the expression is evaluated. *)
Record yhat_expr : Type := {
  e_y_old : vec;
  e_xbar_old : vec;
}.

Definition yhat_value (e : yhat_expr) (rho : R) (x : vec) : vec :=
  vadd (e_y_old e) (vscale rho (vsub x (e_xbar_old e))).

(** [v[key]]: the value of the variable [x] ([None] before the first
    solve) and of the parameters [xbar], [y], [rho].  The entry ["yhat"] is
    rebuilt on every adaptation round before it is read and is not part
    of the state. *)
Record var_state : Type := {
  vs_x : option vec;
  vs_xbar : vec;
  vs_y : vec;
  vs_rho : R;
}.

(** What [v_old[key]["y"]] is bound to: an array of its own, or the array
    of the parameter [y] itself, which [+=] updates in place. *)
Inductive y_ref : Type :=
  | OwnArray (a : vec)
  | ParamArray.

Definition read_y (r : y_ref) (y : vec) : vec :=
  match r with
  | OwnArray a => a
  | ParamArray => y
  end.

(** [v_old[key]] *)
Record baseline : Type := {
  o_x : vec;
  o_xbar : vec;
  o_y : y_ref;
  o_yhat : vec;
}.

(** The options of [run_worker].  [value_shares] tells whether reading
    [.value] of a cvxpy parameter hands out the array the parameter holds
    ([true]) or a copy of it ([false]); that is decided inside cvxpy, and
    the source makes no copy of its own. *)
Record options : Type := {
  value_shares : bool;
  spectral : bool;
  Tf : Z;
  opt_eps : R;
  opt_C : R;
}.

(** Assignment to the [value] of a parameter built with [nonneg = True]. *)
Definition set_nonneg (a : xreal) : M R :=
  match a with
  | Fin r => if Rle_dec 0 r then ret r else raise ValueError
  | _ => raise ValueError
  end.

Definition ssq_zero : residual_report :=
  {| r_primal := 0; r_dual := 0; r_x := 0; r_xbar := 0; r_y := 0 |}.

(** The spectral branch of the loop body (lines 298-314). *)
Definition adapt (opts : options) (i : Z) (x xbar y xbar_old y_old : vec)
    (rho : R) (o : baseline) : M (R * baseline) :=
  let yhat := {| e_y_old := y_old; e_xbar_old := xbar_old |} in
  let dx := vsub x (o_x o) in
  let dxbar := vadd (vneg xbar) (o_xbar o) in
  let dy := vsub y (read_y (o_y o) y) in
  let dyhat := vsub (yhat_value yhat rho x) (o_yhat o) in
  do r <- step_spec rho i dx dxbar dy dyhat (opt_eps opts) (opt_C opts);
  do rho' <- set_nonneg r;
  ret (rho',
       {| o_x := x; o_xbar := xbar;
          o_y := if value_shares opts then ParamArray else OwnArray y;
          o_yhat := yhat_value yhat rho' x |}).

(** The body of [for key in v.keys()] (lines 272-314), for one key:
    [xbar_new] is [xbars[key]], [i] the round index received with it.  With
    [x] still [None] the update of [y] adds [None] to an array, which
    raises. *)
Definition update_key (opts : options) (i : Z) (xbar_new : vec)
    (s : var_state) (o : baseline) (ssq : residual_report)
    : M (var_state * baseline * residual_report) :=
  let rho := vs_rho s in
  let primal :=
    match vs_x s with
    | None => vneg xbar_new
    | Some x => vsub x xbar_new
    end in
  let dual := vscale rho (vsub (vs_xbar s) xbar_new) in
  let xbar_old := vs_xbar s in
  match vs_x s with
  | None => raise TypeError
  | Some x =>
      let y := vadd (vs_y s) (vscale rho (vsub x xbar_new)) in
      let y_old := if value_shares opts then y else vs_y s in
      let ssq' :=
        {| r_primal := r_primal ssq + np_sum (vsquare primal);
           r_dual := r_dual ssq + np_sum (vsquare dual);
           r_x := r_x ssq + np_sum (vsquare x);
           r_xbar := r_xbar ssq + np_sum (vsquare xbar_new);
           r_y := r_y ssq + np_sum (vsquare y) |} in
      let s' := {| vs_x := Some x; vs_xbar := xbar_new; vs_y := y;
                   vs_rho := rho |} in
      if spectral opts then
        if Z.eq_dec (Tf opts) 0%Z then raise ZeroDivisionError
        else if Z.eq_dec (i mod Tf opts)%Z 1%Z then
          do ro <- adapt opts i x xbar_new y xbar_old y_old rho o;
          ret ({| vs_x := Some x; vs_xbar := xbar_new; vs_y := y;
                  vs_rho := fst ro |}, snd ro, ssq')
        else ret (s', o, ssq')
      else ret (s', o, ssq')
  end.

(** One pass of the loop over the worker's variables, in the order of
    [v.keys()]; [xbars] is the consensus received from the coordinator. *)
Fixpoint update_keys (opts : options) (i : Z) (xbars : gmap Z vec)
    (vs : list (Z * (var_state * baseline))) (ssq : residual_report)
    : M (list (Z * (var_state * baseline)) * residual_report) :=
  match vs with
  | [] => ret ([], ssq)
  | (key, (s, o)) :: rest =>
      match xbars !! key with
      | None => raise KeyError
      | Some xbar_new =>
          do r <- update_key opts i xbar_new s o ssq;
          let '(s', o', ssq') := r in
          do rs <- update_keys opts i xbars rest ssq';
          ret ((key, (s', o')) :: fst rs, snd rs)
      end
  end.

(** The adaptation as the specification words it: every delta is the
    current value minus the baseline, and [yhat] is computed from the [y]
    and [xbar] that the round started with. *)
Definition adapt_spec (opts : options) (i : Z) (xbar_new : vec)
    (s : var_state) (o : baseline) (x : vec) : M xreal :=
  let rho := vs_rho s in
  let y := vadd (vs_y s) (vscale rho (vsub x xbar_new)) in
  let yhat := vadd (vs_y s) (vscale rho (vsub x (vs_xbar s))) in
  step_spec rho i (vsub x (o_x o)) (vsub xbar_new (o_xbar o))
    (vsub y (read_y (o_y o) y)) (vsub yhat (o_yhat o))
    (opt_eps opts) (opt_C opts).

(** The step size of a variable of the worker is positive. *)
Definition positive_rho (e : Z * (var_state * baseline)) : Prop :=
  0 < vs_rho (fst (snd e)).

(** A variable that the round can update: it has been solved, the
    consensus has a value for it, and its step size is positive. *)
Definition ready (xbars : gmap Z vec) (e : Z * (var_state * baseline)) : Prop :=
  is_Some (vs_x (fst (snd e))) /\ is_Some (xbars !! fst e) /\ positive_rho e.

(** The worker between two messages: a solve replaces the values of the
    variables and nothing else; a round updates every variable with the
    consensus [xbars] and the round index [i] that it receives. *)
Definition solved_again (e e' : Z * (var_state * baseline)) : Prop :=
  fst e' = fst e /\ snd (snd e') = snd (snd e) /\
  vs_xbar (fst (snd e')) = vs_xbar (fst (snd e)) /\
  vs_y (fst (snd e')) = vs_y (fst (snd e)) /\
  vs_rho (fst (snd e')) = vs_rho (fst (snd e)).

Inductive worker_step (opts : options)
    : list (Z * (var_state * baseline)) ->
      list (Z * (var_state * baseline)) -> Prop :=
  | step_solve vs vs' :
      Forall2 solved_again vs vs' -> worker_step opts vs vs'
  | step_round i xbars l vs vs' ssq' :
      update_keys opts i xbars vs ssq_zero = (l, Ok (vs', ssq')) ->
      worker_step opts vs vs'.

(** *** Two concrete situations *)

(** The first adaptation (round 1, period 2, default threshold and
    constant) of a scalar variable solved to 5, with a consensus of 1,
    while [xbar], [y] and the baseline are zero. *)
Definition default_opts (shares : bool) : options :=
  {| value_shares := shares; spectral := true; Tf := 2;
     opt_eps := 2 / 10; opt_C := 10000000000 |}.

Definition solved_at_5 : var_state :=
  {| vs_x := Some [5]; vs_xbar := [0]; vs_y := [0]; vs_rho := 1 |}.

Definition zero_baseline : baseline :=
  {| o_x := [0]; o_xbar := [0]; o_y := OwnArray [0]; o_yhat := [0] |}.

(** Deltas that pass the small-norm guard although [dx] and [dyhat] are
    orthogonal. *)
Definition orth_dx : vec := [1; 0].
Definition orth_dyhat : vec := [0; 1].
Definition orth_dxbar : vec := [1; 0].
Definition orth_dy : vec := [1; 0].

(** ** Initial step sizes and the initial state of a worker *)

(** A cvxpy variable, as far as the program looks at it: its id and its
    shape, flattened to a number of components.  A problem is given by
    [prob.variables()]. *)
Record variable : Type := {
  var_id : Z;
  var_size : nat;
}.

(** One entry of the dictionary comprehension of [assign_rho]. *)
Definition rho_entry (rho_init : gmap Z R) (dflt : R) (m : gmap Z R)
    (var : variable) : gmap Z R :=
  <[var_id var := default dflt (rho_init !! var_id var)]> m.

(** [assign_rho] (lines 37-42) *)
Definition assign_rho (p_list : list (list variable)) (rho_init : gmap Z R)
    (dflt : R) : list (gmap Z R) :=
  map (fun prob => foldl (rho_entry rho_init dflt) ∅ prob) p_list.

(** The keyword argument [rho_init] of [consensus]: a scalar or a
    dictionary (an empty dictionary when it is left out). *)
Inductive rho_arg : Type :=
  | RhoScalar (r : R)
  | RhoDict (m : gmap Z R).

(** [rho_list] in [consensus] (lines 320-324) *)
Definition rho_list (p_list : list (list variable)) (arg : rho_arg)
    : list (gmap Z R) :=
  match arg with
  | RhoScalar r => assign_rho p_list ∅ r
  | RhoDict m => assign_rho p_list m 1
  end.

(** [np.zeros(shape)] *)
Definition zeros (n : nat) : vec := replicate n 0.

(** The dictionary [vmap] that [prox_step] (lines 185-201) builds, in the
    order of the variables: [rho_init[xid]] must exist and is assigned to a
    parameter built with [nonneg = True]; the variable has no value yet.
    The objective that [prox_step] builds as well is a cvxpy expression for
    the solver and is not modelled. *)
Fixpoint prox_step_vmap (prob : list variable) (rho_init : gmap Z R)
    : M (list (Z * var_state)) :=
  match prob with
  | [] => ret []
  | xvar :: rest =>
      match rho_init !! var_id xvar with
      | None => raise KeyError
      | Some r =>
          do rho <- set_nonneg (Fin r);
          do vmap <- prox_step_vmap rest rho_init;
          ret ((var_id xvar,
                {| vs_x := None; vs_xbar := zeros (var_size xvar);
                   vs_y := zeros (var_size xvar); vs_rho := rho |}) :: vmap)
      end
  end.

(** [v_old[key]] at the start of [run_worker] (lines 252-254). *)
Definition initial_baseline (s : var_state) : baseline :=
  {| o_x := zeros (length (vs_xbar s)); o_xbar := zeros (length (vs_xbar s));
     o_y := OwnArray (zeros (length (vs_y s)));
     o_yhat := zeros (length (vs_xbar s)) |}.

(** The state with which [run_worker] enters its loop (lines 248-254).
    Without the spectral option [v_old] does not exist and is never read;
    the model then carries the zero baseline all the same. *)
Definition worker_init (prob : list variable) (rho_init : gmap Z R)
    : M (list (Z * (var_state * baseline))) :=
  do v <- prox_step_vmap prob rho_init;
  ret (map (fun e : Z * var_state =>
              (fst e, (snd e, initial_baseline (snd e)))) v).

(** The step size that [assign_rho] gives to the variable [id]. *)
Definition assigned (rho_init : gmap Z R) (dflt : R) (id : Z) : R :=
  default dflt (rho_init !! id).

(** The state of a variable before its first solve. *)
Definition fresh_state (rho : R) (var : variable)
    : Z * (var_state * baseline) :=
  (var_id var,
   ({| vs_x := None; vs_xbar := zeros (var_size var);
       vs_y := zeros (var_size var); vs_rho := rho |},
    {| o_x := zeros (var_size var); o_xbar := zeros (var_size var);
       o_y := OwnArray (zeros (var_size var));
       o_yhat := zeros (var_size var) |})).

(** ** The coordinator *)

(** How a run of [consensus] ends: with its result, with an exception of
    the aggregator or of numpy, or with the [UnboundLocalError] of reading
    [xbars] when no round was run. *)
Inductive run_result (A : Type) : Type :=
  | Returned (a : A)
  | Raised (e : exn)
  | UnboundLocal.
Arguments Returned {A} a.
Arguments Raised {A} e.
Arguments UnboundLocal {A}.

(** The dictionary that [consensus] returns, without the solve time. *)
Record run_output : Type := {
  out_xbars : gmap Z (list xreal);
  out_residuals : list (R * R);
  out_num_iters : nat;
}.

(** What the coordinator receives from its pipes in round [i]: the reports
    of the workers, and then their residual sums. *)
Definition inbox : Type := nat -> list report * list residual_report.

(** The loop of [consensus] (lines 339-353) with [n] rounds left, after
    [i] rounds: [last] is the value of [xbars], if it has one, and
    [resid] the rows of [resid] filled so far. *)
Fixpoint consensus_loop (n i : nat) (eps : R) (recv : inbox)
    (last : option (gmap Z (list xreal))) (resid : list (R * R))
    : run_result run_output :=
  match n with
  | O =>
      match last with
      | None => UnboundLocal
      | Some xbars =>
          Returned {| out_xbars := xbars; out_residuals := resid;
                      out_num_iters := i |}
      end
  | S n' =>
      match x_average (fst (recv i)) with
      | Raise e => Raised e
      | Ok xbars =>
          let '(primal, dual, stopped) := res_stop (snd (recv i)) eps in
          let resid' := resid ++ [(primal, dual)] in
          if stopped then
            Returned {| out_xbars := xbars; out_residuals := resid';
                        out_num_iters := S i |}
          else consensus_loop n' (S i) eps recv (Some xbars) resid'
      end
  end.

(** [consensus] (lines 317-357) from the allocation of [resid] on, as a
    function of the messages received; [np.zeros] rejects a negative
    number of rows. *)
Definition consensus (max_iter : Z) (eps : R) (recv : inbox)
    : run_result run_output :=
  if (max_iter <? 0)%Z then Raised ValueError
  else consensus_loop (Z.to_nat max_iter) 0 eps recv None [].

(** The stopping flag and the residual pair of round [j]. *)
Definition round_flag (eps : R) (recv : inbox) (j : nat) : bool :=
  snd (res_stop (snd (recv j)) eps).

Definition round_resid (eps : R) (recv : inbox) (j : nat) : R * R :=
  fst (res_stop (snd (recv j)) eps).

(** ** Further notions for the specification *)

(** A variable that has been solved and for which the consensus has a
    value. *)
Definition updatable (xbars : gmap Z vec)
    (e : Z * (var_state * baseline)) : Prop :=
  is_Some (vs_x (fst (snd e))) /\ is_Some (xbars !! fst e).

(** What a round makes of a variable, whatever the spectral options. *)
Definition round_update (xbars : gmap Z vec)
    (e e' : Z * (var_state * baseline)) : Prop :=
  fst e' = fst e /\
  exists x xbar_new,
    vs_x (fst (snd e)) = Some x /\ xbars !! fst e = Some xbar_new /\
    vs_x (fst (snd e')) = Some x /\
    vs_xbar (fst (snd e')) = xbar_new /\
    vs_y (fst (snd e')) =
      vadd (vs_y (fst (snd e)))
           (vscale (vs_rho (fst (snd e))) (vsub x xbar_new)).


(** The consensus equals the value of the variable and the [xbar] it
    holds, and [y] has their shape. *)
Definition at_consensus (xbars : gmap Z vec)
    (e : Z * (var_state * baseline)) : Prop :=
  exists x,
    vs_x (fst (snd e)) = Some x /\ xbars !! fst e = Some x /\
    vs_xbar (fst (snd e)) = x /\ length (vs_y (fst (snd e))) = length x.

(** [xbar] and [y] of a variable are as they were. *)
Definition same_dual (e e' : Z * (var_state * baseline)) : Prop :=
  vs_xbar (fst (snd e')) = vs_xbar (fst (snd e)) /\
  vs_y (fst (snd e')) = vs_y (fst (snd e)).

(** The sums of a residual report are not below those of another. *)
Definition ssq_le (a b : residual_report) : Prop :=
  r_primal a <= r_primal b /\ r_dual a <= r_dual b /\ r_x a <= r_x b /\
  r_xbar a <= r_xbar b /\ r_y a <= r_y b.

(** The residual sums that a worker sends after a round in which the
    consensus equals the values that the worker holds. *)
Definition fixed_point_report (r : residual_report) : Prop :=
  exists opts i xbars vs l vs',
    Forall (at_consensus xbars) vs /\
    update_keys opts i xbars vs ssq_zero = (l, Ok (vs', r)).

(** A report with every step size multiplied by [c]. *)
Definition scale_steps (c : R) (r : report) : report :=
  let '(st, rho, xvals) := r in (st, Rmult c <$> rho, xvals).

(** ** Elementary facts about the idealised floats *)

Lemma Rltb_true (a b : R) : Rltb a b = true <-> a < b.
Proof. unfold Rltb. destruct (Rlt_dec a b); split; intros; (lra || congruence). Qed.

Lemma Rltb_false (a b : R) : Rltb a b = false <-> b <= a.
Proof. unfold Rltb. destruct (Rlt_dec a b); split; intros; (lra || congruence). Qed.

Lemma Rleb_true (a b : R) : Rleb a b = true <-> a <= b.
Proof. unfold Rleb. destruct (Rle_dec a b); split; intros; (lra || congruence). Qed.

Lemma Rleb_false (a b : R) : Rleb a b = false <-> b < a.
Proof. unfold Rleb. destruct (Rle_dec a b); split; intros; (lra || congruence). Qed.

Lemma eps_fl_pos : 0 < eps_fl.
Proof. unfold eps_fl. apply Rinv_0_lt_compat, IZR_lt. reflexivity. Qed.

Lemma np_sum_vsquare_nonneg (p : vec) : 0 <= np_sum (vsquare p).
Proof.
  induction p as [|x p IH]; simpl; [lra|].
  pose proof (Rle_0_sqr x) as Hx. unfold Rsqr in Hx. lra.
Qed.

Lemma norm_pos (p : vec) : 0 < np_sum (vsquare p) -> 0 < norm p.
Proof. intros H. unfold norm. now apply sqrt_lt_R0. Qed.

Lemma small_norm_false (dx dxbar dy dyhat : vec) :
  small_norm dx dxbar dy dyhat = false <->
  eps_fl < np_sum (vsquare dx) /\ eps_fl < np_sum (vsquare dxbar) /\
  eps_fl < np_sum (vsquare dy) /\ eps_fl < np_sum (vsquare dyhat).
Proof.
  unfold small_norm. rewrite !orb_false_iff, !Rleb_false. tauto.
Qed.

Lemma small_norm_true (dx dxbar dy dyhat : vec) :
  small_norm dx dxbar dy dyhat = true <->
  np_sum (vsquare dx) <= eps_fl \/ np_sum (vsquare dxbar) <= eps_fl \/
  np_sum (vsquare dy) <= eps_fl \/ np_sum (vsquare dyhat) <= eps_fl.
Proof.
  unfold small_norm. rewrite !orb_true_iff, !Rleb_true. tauto.
Qed.

(** ** The least-squares estimator, case by case *)

Lemma step_ls_finite (p d : vec) :
  np_sum (vmul p d) <> 0 -> np_sum (vsquare p) <> 0 ->
  step_ls p d =
    ([], Ok (Fin (if Rlt_dec (np_sum (vsquare d) / np_sum (vmul p d))
                             (2 * (np_sum (vmul p d) / np_sum (vsquare p)))
                  then np_sum (vmul p d) / np_sum (vsquare p)
                  else np_sum (vsquare d) / np_sum (vmul p d)
                       - np_sum (vmul p d) / np_sum (vsquare p) / 2))).
Proof.
  intros Hpd Hpp. unfold step_ls, np_div, bind, ret, xgtb. simpl.
  destruct (Req_dec_T (np_sum (vmul p d)) 0) as [|_]; [contradiction|].
  destruct (Req_dec_T (np_sum (vsquare p)) 0) as [|_]; [contradiction|].
  simpl. unfold Rltb.
  destruct (Rlt_dec _ _); simpl; [reflexivity|].
  destruct (Req_dec_T 2 0); [lra|]. reflexivity.
Qed.

(** Orthogonal deltas: the steepest-descent quotient divides by zero. *)
Lemma step_ls_orthogonal (p d : vec) :
  np_sum (vmul p d) = 0 -> 0 < np_sum (vsquare d) -> 0 < np_sum (vsquare p) ->
  step_ls p d = ([DivByZero (np_sum (vsquare d))], Ok PInf).
Proof.
  intros Hpd Hdd Hpp. unfold step_ls, np_div, bind, ret, xgtb. rewrite Hpd.
  destruct (Req_dec_T 0 0) as [_|]; [|lra].
  destruct (Req_dec_T (np_sum (vsquare p)) 0) as [|_]; [lra|].
  simpl. destruct (Req_dec_T 0 0) as [_|]; [|lra].
  destruct (Req_dec_T (np_sum (vsquare p)) 0) as [|_]; [lra|].
  unfold inf_of_sign. destruct (Rlt_dec 0 (np_sum (vsquare d))); [|lra].
  simpl. destruct (Req_dec_T 2 0); [lra|]. reflexivity.
Qed.

Lemma step_cor_finite (p d : vec) :
  0 < np_sum (vsquare p) -> 0 < np_sum (vsquare d) ->
  step_cor p d = ([], Ok (Fin (np_sum (vmul p d) / (norm p * norm d)))).
Proof.
  intros Hp Hd. unfold step_cor, np_div.
  pose proof (norm_pos p Hp). pose proof (norm_pos d Hd).
  assert (0 < norm p * norm d) by now apply Rmult_lt_0_compat.
  destruct (Req_dec_T (norm p * norm d) 0); [lra|].
  simpl. destruct (Req_dec_T (norm p * norm d) 0); [lra|]. reflexivity.
Qed.

Lemma step_ls_positive (p d : vec) :
  0 < np_sum (vmul p d) -> 0 < np_sum (vsquare p) -> 0 < np_sum (vsquare d) ->
  exists a, step_ls p d = ([], Ok (Fin a)) /\ 0 < a.
Proof.
  intros Hpd Hpp Hdd. rewrite step_ls_finite by lra.
  set (sd := np_sum (vsquare d) / np_sum (vmul p d)).
  set (mg := np_sum (vmul p d) / np_sum (vsquare p)).
  assert (0 < sd) by now apply Rdiv_lt_0_compat.
  assert (0 < mg) by now apply Rdiv_lt_0_compat.
  eexists; split; [reflexivity|]. destruct (Rlt_dec sd (2 * mg)); lra.
Qed.

(** Past the small-norm guard the estimator always returns, and returns a
    positive real when the deltas are positively correlated. *)
Lemma step_ls_total (p d : vec) :
  0 < np_sum (vsquare p) -> 0 < np_sum (vsquare d) ->
  exists l a, step_ls p d = (l, Ok a) /\
    (0 < np_sum (vmul p d) -> l = [] /\ exists r, a = Fin r /\ 0 < r).
Proof.
  intros Hpp Hdd.
  destruct (Req_dec_T (np_sum (vmul p d)) 0) as [Hz|Hnz].
  - rewrite step_ls_orthogonal by assumption.
    do 2 eexists; split; [reflexivity|]. intros; lra.
  - rewrite step_ls_finite by lra.
    do 2 eexists; split; [reflexivity|]. intros Hpos.
    destruct (step_ls_positive p d Hpos Hpp Hdd) as (r & Hr & Hr0).
    rewrite step_ls_finite in Hr by lra. injection Hr as Hr.
    split; [reflexivity|]. exists r. now rewrite Hr.
Qed.

(** ** The safeguard and the clamp *)

Lemma xgtb_Fin (x y : R) : xgtb (Fin x) (Fin y) = true <-> y < x.
Proof. unfold xgtb. simpl. apply Rltb_true. Qed.

Lemma xleb_Fin (x y : R) : xleb (Fin x) (Fin y) = true <-> x <= y.
Proof. simpl. apply Rleb_true. Qed.

Lemma pyclamp_bounds (c : xreal) (lo hi : R) :
  c <> NaN -> lo <= hi ->
  exists v, pymax (pymin c (Fin hi)) (Fin lo) = Fin v /\ lo <= v <= hi.
Proof.
  intros Hc Hle. unfold pymax, pymin, xgtb.
  destruct c as [r| | |]; simpl; [| | |congruence].
  - unfold Rltb. destruct (Rlt_dec hi r); simpl; unfold Rltb.
    + destruct (Rlt_dec hi lo); eexists; split; try reflexivity; lra.
    + destruct (Rlt_dec r lo); eexists; split; try reflexivity; lra.
  - unfold Rltb. destruct (Rlt_dec hi lo); eexists; split; try reflexivity; lra.
  - exists lo. split; [reflexivity|lra].
Qed.

Lemma pow2_IZR_pos (k : Z) : k <> 0%Z -> 0 < 1 * IZR (k ^ 2).
Proof.
  intros Hk. rewrite Rmult_1_l. apply IZR_lt. nia.
Qed.

Lemma scale_ge_1 (k : Z) (C : R) :
  k <> 0%Z -> 0 <= C -> 1 <= 1 + C / (1 * IZR (k ^ 2)).
Proof.
  intros Hk HC. pose proof (pow2_IZR_pos k Hk) as Hp.
  assert (0 <= C / (1 * IZR (k ^ 2))); [|lra].
  apply Rmult_le_pos; [assumption|]. left. now apply Rinv_0_lt_compat.
Qed.

Lemma clamp_interval (rho scale : R) :
  0 < rho -> 1 <= scale ->
  0 < rho / scale /\ rho / scale <= rho /\ rho <= scale * rho.
Proof.
  intros Hrho Hs. assert (0 < scale) by lra.
  assert (0 < / scale) by now apply Rinv_0_lt_compat.
  assert (/ scale <= 1).
  { rewrite <- Rinv_1. apply Rinv_le_contravar; lra. }
  unfold Rdiv. repeat split; nra.
Qed.

(** The candidate chosen by the safeguard is a real number as soon as the
    threshold is not negative: an estimate is only used when its correlation
    is positive, and then it is positive. *)
Lemma step_safe_finite (rho eps : R) (a b : xreal) (ac bc : R) :
  0 <= eps ->
  (0 < ac -> exists r, a = Fin r /\ 0 < r) ->
  (0 < bc -> exists r, b = Fin r /\ 0 < r) ->
  exists r, step_safe rho a b (Fin ac) (Fin bc) eps = Fin r.
Proof.
  intros Heps Ha Hb. unfold step_safe.
  destruct (xgtb (Fin ac) (Fin eps)) eqn:Ea;
    destruct (xgtb (Fin bc) (Fin eps)) eqn:Eb; simpl.
  - apply xgtb_Fin in Ea, Eb.
    destruct Ha as (ra & -> & Hra); [lra|].
    destruct Hb as (rb & -> & Hrb); [lra|].
    simpl. destruct (Rlt_dec (ra * rb) 0); [nra|]. eauto.
  - apply xgtb_Fin in Ea. destruct Ha as (ra & -> & Hra); [lra|].
    destruct (Rleb bc eps); [eauto|].
    destruct (Rleb ac eps); simpl; eauto.
  - apply xgtb_Fin in Eb. destruct Hb as (rb & -> & Hrb); [lra|].
    destruct (Rleb ac eps); simpl; eauto.
  - destruct (Rleb ac eps); simpl; eauto.
Qed.

(** ** The step-size adapter *)

Lemma step_spec_guard (rho : R) (k : Z) (dx dxbar dy dyhat : vec) (eps C : R) :
  small_norm dx dxbar dy dyhat = true ->
  step_spec rho k dx dxbar dy dyhat eps C = ([], Ok (Fin rho)).
Proof. intros H. unfold step_spec. now rewrite H. Qed.

Lemma step_spec_clamped (rho : R) (k : Z) (dx dxbar dy dyhat : vec) (eps C : R) :
  0 < rho -> k <> 0%Z -> 0 <= C -> 0 <= eps ->
  exists l v, step_spec rho k dx dxbar dy dyhat eps C = (l, Ok (Fin v)) /\
    rho / (1 + C / (1 * IZR (k ^ 2))) <= v <= (1 + C / (1 * IZR (k ^ 2))) * rho.
Proof.
  intros Hrho Hk HC Heps.
  pose proof (scale_ge_1 k C Hk HC) as Hs.
  pose proof (pow2_IZR_pos k Hk) as Hk2.
  destruct (clamp_interval rho _ Hrho Hs) as (Hlo & Hlor & Hrhi).
  assert (Hlohi : rho / (1 + C / (1 * IZR (k ^ 2)))
                  <= (1 + C / (1 * IZR (k ^ 2))) * rho) by lra.
  destruct (small_norm dx dxbar dy dyhat) eqn:Hg.
  { rewrite step_spec_guard by assumption.
    exists [], rho. split; [reflexivity|]. lra. }
  apply small_norm_false in Hg. destruct Hg as (Hdx & Hdxbar & Hdy & Hdyhat).
  pose proof eps_fl_pos as He.
  destruct (step_ls_total dx dyhat) as (la & a & Ea & Ha); try lra.
  destruct (step_ls_total dxbar dy) as (lb & b & Eb & Hb); try lra.
  assert (Hna : 0 < norm dx * norm dyhat)
    by (apply Rmult_lt_0_compat; apply norm_pos; lra).
  assert (Hnb : 0 < norm dxbar * norm dy)
    by (apply Rmult_lt_0_compat; apply norm_pos; lra).
  destruct (step_safe_finite rho eps a b
              (np_sum (vmul dx dyhat) / (norm dx * norm dyhat))
              (np_sum (vmul dxbar dy) / (norm dxbar * norm dy)) Heps)
    as (r & Hr).
  { intros Hc. apply Ha.
    apply (Rmult_lt_compat_r _ _ _ Hna) in Hc.
    unfold Rdiv in Hc. rewrite Rmult_assoc, Rinv_l in Hc; lra. }
  { intros Hc. apply Hb.
    apply (Rmult_lt_compat_r _ _ _ Hnb) in Hc.
    unfold Rdiv in Hc. rewrite Rmult_assoc, Rinv_l in Hc; lra. }
  destruct (pyclamp_bounds (Fin r) _ _ ltac:(discriminate) Hlohi) as (v & Hv & Hvb).
  exists (la ++ lb), v. split; [|exact Hvb].
  unfold step_spec.
  destruct (small_norm dx dxbar dy dyhat) eqn:Hg.
  { apply small_norm_true in Hg. lra. }
  rewrite Ea, Eb, !step_cor_finite by lra.
  unfold bind, py_div, ret, raise.
  destruct (Req_dec_T (1 * IZR (k ^ 2)) 0); [lra|].
  destruct (Req_dec_T (1 + C / (1 * IZR (k ^ 2))) 0); [lra|].
  rewrite Hr, Hv. now rewrite !app_nil_r.
Qed.

(** ** The aggregator: what the two loops accumulate *)

Lemma merge_items_spec (rho : gmap Z R) (xvals : gmap Z vec)
    (xmerge : gmap Z (list vec)) (rho_sum : gmap Z R) :
  (forall key, is_Some (xvals !! key) -> is_Some (rho !! key)) ->
  exists xm rs,
    map_fold (merge_item rho) (Ok (xmerge, rho_sum)) xvals = Ok (xm, rs) /\
    forall key,
      xm !! key =
        match xvals !! key, rho !! key with
        | Some v, Some s => Some (default [] (xmerge !! key) ++ [vscale s v])
        | _, _ => xmerge !! key
        end /\
      rs !! key =
        match xvals !! key, rho !! key with
        | Some v, Some s => Some (default 0 (rho_sum !! key) + s)
        | _, _ => rho_sum !! key
        end.
Proof.
  apply (map_fold_weak_ind (fun r (m : gmap Z vec) =>
    (forall key, is_Some (m !! key) -> is_Some (rho !! key)) ->
    exists xm rs, r = Ok (xm, rs) /\
      forall key,
        xm !! key =
          match m !! key, rho !! key with
          | Some v, Some s => Some (default [] (xmerge !! key) ++ [vscale s v])
          | _, _ => xmerge !! key
          end /\
        rs !! key =
          match m !! key, rho !! key with
          | Some v, Some s => Some (default 0 (rho_sum !! key) + s)
          | _, _ => rho_sum !! key
          end)).
  - intros _. exists xmerge, rho_sum. split; [reflexivity|].
    intros key. now rewrite lookup_empty.
  - intros i x m r Hi IH Hcov.
    destruct IH as (xm & rs & -> & Hacc).
    { intros key Hk. apply Hcov. rewrite lookup_insert_ne; [assumption|].
      intros ->. rewrite Hi in Hk. now destruct Hk. }
    destruct (Hcov i) as [s Hs]; [rewrite lookup_insert_eq; eauto|].
    simpl. rewrite Hs. do 2 eexists. split; [reflexivity|].
    intros key. destruct (decide (i = key)) as [->|Hne].
    + rewrite !lookup_insert_eq, Hs.
      destruct (Hacc key) as [-> ->]. now rewrite Hi.
    + rewrite !lookup_insert_ne by assumption. apply Hacc.
Qed.

Lemma np_sum_snoc (l : list R) (x : R) : np_sum (l ++ [x]) = np_sum l + x.
Proof.
  unfold np_sum. induction l as [|y l IH]; simpl; [lra|]. rewrite IH. lra.
Qed.

Lemma reported_snoc (key : Z) (rs : list report) (st : status)
    (rho : gmap Z R) (xvals : gmap Z vec) :
  reported key (rs ++ [(st, rho, xvals)]) =
  reported key rs ++
    match xvals !! key, rho !! key with
    | Some v, Some s => [(s, v)]
    | _, _ => []
    end.
Proof.
  unfold reported. rewrite omap_app. f_equal. simpl.
  destruct (xvals !! key), (rho !! key); reflexivity.
Qed.

Lemma merge_report_ok (acc : merged) (pre : list report) (st : status)
    (rho : gmap Z R) (xvals : gmap Z vec) :
  merged_ok acc pre -> st ∉ INF_OR_UNB -> covered (st, rho, xvals) ->
  exists acc', merge_report (Ok acc) (st, rho, xvals) = Ok acc' /\
               merged_ok acc' (pre ++ [(st, rho, xvals)]).
Proof.
  intros Hacc Hst Hcov. destruct acc as [xmerge rho_sum]. simpl.
  rewrite bool_decide_eq_false_2 by assumption.
  destruct (merge_items_spec rho xvals xmerge rho_sum Hcov) as (xm & rs & E & H).
  exists (xm, rs). split; [exact E|].
  intros key. simpl. destruct (H key) as [-> ->].
  destruct (Hacc key) as [Hx Hr]. simpl in Hx, Hr.
  rewrite reported_snoc.
  destruct (xvals !! key) as [v|], (rho !! key) as [s|];
    rewrite ?app_nil_r; try (split; assumption).
  rewrite Hx, Hr.
  destruct (reported key pre) as [|p l]; simpl.
  - split; [reflexivity|]. f_equal. lra.
  - rewrite !map_app. simpl. split; [reflexivity|].
    f_equal. rewrite np_sum_snoc. lra.
Qed.

Lemma merge_report_raise (e : exn) (rs : list report) :
  foldl merge_report (Raise e) rs = Raise e.
Proof. induction rs as [|r rs IH]; simpl; [reflexivity|assumption]. Qed.

Lemma merge_reports_ok (rs pre : list report) (acc : merged) :
  merged_ok acc pre -> Forall feasible rs -> Forall covered rs ->
  exists acc', foldl merge_report (Ok acc) rs = Ok acc' /\
               merged_ok acc' (pre ++ rs).
Proof.
  revert pre acc. induction rs as [|[[st rho] xvals] rs IH]; intros pre acc Hacc Hf Hc.
  - exists acc. rewrite app_nil_r. split; [reflexivity|assumption].
  - apply Forall_cons in Hf as [Hst Hf]. apply Forall_cons in Hc as [Hcov Hc].
    destruct (merge_report_ok acc pre st rho xvals Hacc Hst Hcov) as (acc1 & E1 & H1).
    destruct (IH _ _ H1 Hf Hc) as (acc' & E' & H').
    exists acc'. split.
    + cbn [foldl]. rewrite E1. exact E'.
    + now rewrite <- app_assoc in H'.
Qed.

Lemma merged_ok_empty : merged_ok (∅, ∅) [].
Proof. intros key. simpl. now rewrite !lookup_empty. Qed.

Lemma merge_reports_raise (rs : list report) (acc : merged) :
  Forall covered rs -> Exists inf_or_unb rs ->
  foldl merge_report (Ok acc) rs = Raise RuntimeError_infeasible.
Proof.
  revert acc. induction rs as [|[[st rho] xvals] rs IH]; intros acc Hc Hex.
  - now apply Exists_nil in Hex.
  - apply Forall_cons in Hc as [Hcov Hc]. cbn [foldl].
    destruct (decide (st ∈ INF_OR_UNB)) as [Hin|Hout].
    + simpl. rewrite bool_decide_eq_true_2 by assumption.
      apply merge_report_raise.
    + apply Exists_cons in Hex as [Hhd|Htl]; [contradiction|].
      destruct acc as [xmerge rho_sum]. simpl.
      rewrite bool_decide_eq_false_2 by assumption.
      destruct (merge_items_spec rho xvals xmerge rho_sum Hcov)
        as (xm & rs' & E & _).
      etransitivity; [|exact (IH (xm, rs') Hc Htl)]. f_equal. exact E.
Qed.

Lemma feasible_or_not (rs : list report) :
  Forall feasible rs \/ Exists inf_or_unb rs.
Proof.
  induction rs as [|[[st rho] xvals] rs [IH|IH]].
  - left. constructor.
  - destruct (decide (st ∈ INF_OR_UNB)) as [Hin|Hout].
    + right. now left.
    + left. now constructor.
  - right. now right.
Qed.

Lemma feasible_not_inf (rs : list report) :
  Forall feasible rs -> ~ Exists inf_or_unb rs.
Proof.
  intros Hf Hex. apply Exists_exists in Hex as ([[st rho] xvals] & Hin & Hbad).
  rewrite Forall_forall in Hf. exact (Hf _ Hin Hbad).
Qed.

(** The mapping returned when no report is infeasible or unbounded. *)
Lemma x_average_ok (rs : list report) :
  Forall feasible rs -> Forall covered rs ->
  exists xbars, x_average rs = Ok xbars /\
    forall key,
      xbars !! key =
        match reported key rs with
        | [] => None
        | l => Some (map (fun s => xdiv (Fin s) (Fin (np_sum (map fst l))))
                         (colsum (map (fun sv => vscale (fst sv) (snd sv)) l)))
        end.
Proof.
  intros Hf Hc.
  destruct (merge_reports_ok rs [] (∅, ∅) merged_ok_empty Hf Hc)
    as ([xmerge rho_sum] & E & Hacc).
  unfold x_average. rewrite E. eexists. split; [reflexivity|].
  intros key. rewrite map_lookup_imap.
  destruct (Hacc key) as [Hx Hr]. simpl in Hx, Hr. rewrite Hx.
  destruct (reported key rs) as [|p l]; [reflexivity|].
  simpl. now rewrite Hr.
Qed.

Lemma reported_nonempty (key : Z) (rs : list report) :
  Forall covered rs -> (reported key rs <> [] <-> Exists (reports_key key) rs).
Proof.
  induction rs as [|[[st rho] xvals] rs IH]; intros Hc.
  - simpl. split; [congruence|]. intros H. now apply Exists_nil in H.
  - apply Forall_cons in Hc as [Hcov Hc]. specialize (IH Hc).
    rewrite Exists_cons. unfold reported in *. cbn [omap list_omap]. simpl.
    destruct (xvals !! key) as [v|] eqn:Ev.
    + destruct (Hcov key) as [s Hs]; [rewrite Ev; eauto|]. rewrite Hs.
      split; [intros _; left; eauto|discriminate].
    + rewrite IH. split; [tauto|]. intros [[? ?]|?]; [discriminate|assumption].
Qed.

Lemma reported_positive (key : Z) (rs : list report) :
  Forall positive_steps rs -> Forall (fun sv => 0 < fst sv) (reported key rs).
Proof.
  induction rs as [|[[st rho] xvals] rs IH]; intros Hp; [constructor|].
  apply Forall_cons in Hp as [Hpos Hp]. specialize (IH Hp).
  unfold reported in *. cbn [omap list_omap]. simpl.
  destruct (xvals !! key) as [v|]; [|assumption].
  destruct (rho !! key) as [s|] eqn:Es; [|assumption].
  constructor; [|assumption]. simpl. exact (Hpos key s Es).
Qed.

Lemma np_sum_positive (l : list R) :
  l <> [] -> Forall (fun s => 0 < s) l -> 0 < np_sum l.
Proof.
  intros Hne Hl. destruct l as [|x l]; [congruence|].
  apply Forall_cons in Hl as [Hx Hl]. simpl.
  assert (0 <= np_sum l); [|lra]. clear Hne Hx.
  induction Hl as [|y l Hy _ IH]; simpl; lra.
Qed.

Lemma xdiv_finite (a b : R) : b <> 0 -> xdiv (Fin a) (Fin b) = Fin (a / b).
Proof. intros Hb. simpl. destruct (Req_dec_T b 0); [contradiction|reflexivity]. Qed.

(** ** Equal step sizes: the weighted average is the mean *)

Lemma vadd_vscale (r : R) (a b : vec) :
  vadd (vscale r a) (vscale r b) = vscale r (vadd a b).
Proof.
  revert b. induction a as [|x a IH]; intros [|y b]; simpl; try reflexivity.
  f_equal; [lra|apply IH].
Qed.

Lemma foldl_vadd_vscale (r : R) (xs : list vec) (a : vec) :
  foldl vadd (vscale r a) (map (vscale r) xs) = vscale r (foldl vadd a xs).
Proof.
  revert a. induction xs as [|x xs IH]; intros a; simpl; [reflexivity|].
  now rewrite vadd_vscale, IH.
Qed.

Lemma colsum_vscale (r : R) (xs : list vec) :
  colsum (map (vscale r) xs) = vscale r (colsum xs).
Proof. destruct xs as [|x xs]; [reflexivity|]. apply foldl_vadd_vscale. Qed.

Lemma np_sum_const (rho : R) (l : list R) :
  Forall (fun s => s = rho) l -> np_sum l = INR (length l) * rho.
Proof.
  induction 1 as [|s l -> _ IH]; [simpl; lra|].
  cbn [length]. rewrite S_INR. simpl. rewrite IH. lra.
Qed.

Lemma weighted_average_equal_steps (rho : R) (l : list (R * vec)) :
  l <> [] -> 0 < rho -> Forall (fun sv => fst sv = rho) l ->
  weighted_average l = mean (map snd l).
Proof.
  intros Hne Hrho Hall. unfold weighted_average, mean.
  assert (Hmap : map (fun sv : R * vec => vscale (fst sv) (snd sv)) l
                 = map (vscale rho) (map snd l)).
  { rewrite map_map. apply map_ext_in. intros [s v] Hin. simpl.
    rewrite Forall_forall in Hall. apply list_elem_of_In in Hin.
    f_equal. exact (Hall _ Hin). }
  rewrite Hmap, colsum_vscale.
  rewrite (np_sum_const rho) by now apply Forall_map.
  rewrite !length_map. unfold vscale. rewrite map_map.
  assert (Hn : 0 < INR (length l)).
  { destruct l; [congruence|]. apply lt_0_INR. simpl. lia. }
  apply map_ext. intros x. f_equal. field. lra.
Qed.

(** ** Specification of the stopping evaluator *)

Lemma pymaxR_Rmax (a b : R) : pymaxR a b = Rmax a b.
Proof.
  unfold pymaxR, Rmax. destruct (Rlt_dec a b), (Rle_dec a b); lra.
Qed.

(** C1.  [res_stop] returns the sums of the primal and of the dual fields
    and a flag that is true exactly when
    [primal <= eps * max(x, xbar) + eps_fl] and [dual <= eps * y + eps_fl],
    the sums being taken over all reports.  Hence for a tolerance that is
    not negative and sums of squares (which are not negative), zero primal
    and dual totals always give [true], also when every sum is zero. *)
Theorem res_stop_converged (res_ssq : list residual_report) (eps : R) :
  let primal_total := np_sum (map r_primal res_ssq) in
  let dual_total := np_sum (map r_dual res_ssq) in
  let x_total := np_sum (map r_x res_ssq) in
  let xbar_total := np_sum (map r_xbar res_ssq) in
  let y_total := np_sum (map r_y res_ssq) in
  exists stopped,
    res_stop res_ssq eps = (primal_total, dual_total, stopped) /\
    (stopped = true <->
       primal_total <= eps * Rmax x_total xbar_total + eps_fl /\
       dual_total <= eps * y_total + eps_fl) /\
    (0 <= eps -> 0 <= x_total -> 0 <= xbar_total -> 0 <= y_total ->
     primal_total = 0 -> dual_total = 0 -> stopped = true).
Proof.
  intros. eexists. split; [reflexivity|].
  fold primal_total dual_total x_total xbar_total y_total.
  rewrite andb_true_iff, !Rleb_true, pymaxR_Rmax. split; [tauto|].
  intros Heps Hx Hxbar Hy -> ->. pose proof eps_fl_pos.
  assert (0 <= Rmax x_total xbar_total).
  { unfold Rmax. destruct (Rle_dec x_total xbar_total); lra. }
  split; nra.
Qed.

Lemma res_stop_converged_witness :
  res_stop [ssq_zero; ssq_zero] (1 / 10000) = (0 + (0 + 0), 0 + (0 + 0), true).
Proof.
  destruct (res_stop_converged [ssq_zero; ssq_zero] (1 / 10000))
    as (stopped & E & _ & H).
  rewrite E. simpl. f_equal. apply H; simpl; lra.
Defined.

(** ** Specification of the step-size adapter *)

(** C4.  For a positive step size, a round index of at least 1 and any
    deltas, with a convergence constant and a safeguarding threshold that
    are not negative, [step_spec] returns a real number between
    [rho/(1+C/k^2)] and [rho*(1+C/k^2)]. *)
Theorem step_spec_bounded (rho : R) (k : Z) (dx dxbar dy dyhat : vec)
    (eps C : R) :
  0 < rho -> (1 <= k)%Z -> 0 <= C -> 0 <= eps ->
  exists v,
    outcome (step_spec rho k dx dxbar dy dyhat eps C) = Ok (Fin v) /\
    rho / (1 + C / IZR k ^ 2) <= v <= rho * (1 + C / IZR k ^ 2).
Proof.
  intros Hrho Hk HC Heps.
  destruct (step_spec_clamped rho k dx dxbar dy dyhat eps C)
    as (l & v & E & Hv); try assumption; [lia|].
  exists v. rewrite E. split; [reflexivity|].
  rewrite pow_IZR. change (Z.of_nat 2) with 2%Z.
  rewrite Rmult_1_l in Hv. lra.
Qed.

Lemma step_spec_bounded_witness :
  exists v,
    outcome (step_spec 1 1 [5] [-1] [4] [5] (2 / 10) 3) = Ok (Fin v) /\
    1 / (1 + 3 / IZR 1 ^ 2) <= v <= 1 * (1 + 3 / IZR 1 ^ 2).
Proof.
  apply step_spec_bounded; try reflexivity; try lra; lia.
Defined.

(** C5.  The safeguard returns [sqrt(a*b)] when both correlations exceed
    [eps], [a] when only [a_cor] does and [b_cor <= eps], [b] when only
    [b_cor] does and [a_cor <= eps], and [rho] when neither exceeds [eps];
    for real estimates whose product is not negative the first value is
    the real square root of the product. *)
Theorem step_safe_cases (rho : R) (a b a_cor b_cor : xreal) (eps : R) :
  (xgtb a_cor (Fin eps) = true -> xgtb b_cor (Fin eps) = true ->
   step_safe rho a b a_cor b_cor eps = xsqrt (xmul a b)) /\
  (xgtb a_cor (Fin eps) = true -> xleb b_cor (Fin eps) = true ->
   step_safe rho a b a_cor b_cor eps = a) /\
  (xleb a_cor (Fin eps) = true -> xgtb b_cor (Fin eps) = true ->
   step_safe rho a b a_cor b_cor eps = b) /\
  (xgtb a_cor (Fin eps) = false -> xgtb b_cor (Fin eps) = false ->
   step_safe rho a b a_cor b_cor eps = Fin rho) /\
  (forall x y ac bc : R,
     a = Fin x -> b = Fin y -> a_cor = Fin ac -> b_cor = Fin bc ->
     ac > eps -> bc > eps -> 0 <= x * y ->
     step_safe rho a b a_cor b_cor eps = Fin (sqrt (x * y))).
Proof.
  unfold step_safe. repeat split.
  - intros -> ->. reflexivity.
  - intros -> Hb. rewrite Hb.
    destruct (xgtb b_cor (Fin eps)) eqn:E; cbn [andb]; [|reflexivity].
    destruct b_cor as [bc| | |]; try discriminate.
    apply xgtb_Fin in E. apply xleb_Fin in Hb. lra.
  - intros Ha ->. rewrite Ha.
    destruct (xgtb a_cor (Fin eps)) eqn:E; cbn [andb]; [|reflexivity].
    destruct a_cor as [ac| | |]; try discriminate.
    apply xgtb_Fin in E. apply xleb_Fin in Ha. lra.
  - intros -> ->. cbn [andb]. now rewrite !andb_false_r.
  - intros x y ac bc -> -> -> -> Ha Hb Hxy.
    assert (Ea : xgtb (Fin ac) (Fin eps) = true) by (apply xgtb_Fin; lra).
    assert (Eb : xgtb (Fin bc) (Fin eps) = true) by (apply xgtb_Fin; lra).
    rewrite Ea, Eb. simpl. destruct (Rlt_dec (x * y) 0); [lra|reflexivity].
Qed.

Lemma step_safe_cases_witness :
  step_safe 1 (Fin 2) (Fin 2) (Fin 1) (Fin 1) (2 / 10) = Fin (sqrt (2 * 2)).
Proof.
  destruct (step_safe_cases 1 (Fin 2) (Fin 2) (Fin 1) (Fin 1) (2 / 10))
    as (_ & _ & _ & _ & H).
  apply (H 2 2 1 1); try reflexivity; lra.
Defined.

(** C6.  For vectors of one shape with [sum(p*d)] and [sum(p^2)] nonzero,
    [step_ls] returns the minimum-gradient quotient [sum(p*d)/sum(p^2)]
    when twice that quotient exceeds the steepest-descent quotient
    [sum(d^2)/sum(p*d)], and otherwise the steepest-descent quotient minus
    half the minimum-gradient one; no division by zero takes place. *)
Theorem step_ls_cases (p d : vec) :
  same_shape p d ->
  np_sum (vmul p d) <> 0 -> np_sum (vsquare p) <> 0 ->
  let steepest_descent := np_sum (vsquare d) / np_sum (vmul p d) in
  let min_gradient := np_sum (vmul p d) / np_sum (vsquare p) in
  (2 * min_gradient > steepest_descent ->
   step_ls p d = ([], Ok (Fin min_gradient))) /\
  (~ 2 * min_gradient > steepest_descent ->
   step_ls p d = ([], Ok (Fin (steepest_descent - min_gradient / 2)))).
Proof.
  intros _ Hpd Hpp sd mg. rewrite step_ls_finite by assumption.
  fold sd mg. split; intros H; destruct (Rlt_dec sd (2 * mg)); try lra;
    reflexivity.
Qed.

Lemma step_ls_cases_witness :
  step_ls [1] [1] = ([], Ok (Fin ((1 * 1 + 0) / (1 * 1 + 0)))).
Proof.
  apply (step_ls_cases [1] [1]); try reflexivity; simpl; lra.
Defined.

(** ** Specification of the aggregator *)

(** C2.  When no report is infeasible or unbounded (and every report has a
    positive step size for each variable it gives a value for),
    [x_average] returns a mapping that is defined exactly on the variable
    ids that occur in some report, and whose entry for such an id is the
    sum of [rho_i * x_i] divided by the sum of [rho_i], over the reports
    that contain the id; when those reports all have the same step size,
    the entry is the mean of their values. *)
Theorem x_average_weighted (prox_res : list report) :
  Forall feasible prox_res ->
  Forall covered prox_res -> Forall positive_steps prox_res ->
  exists xbars,
    x_average prox_res = Ok xbars /\
    forall key,
      (~ Exists (reports_key key) prox_res -> xbars !! key = None) /\
      (Exists (reports_key key) prox_res ->
       xbars !! key = Some (weighted_average (reported key prox_res))) /\
      (Exists (reports_key key) prox_res ->
       forall rho, Forall (fun sv => fst sv = rho) (reported key prox_res) ->
       xbars !! key = Some (mean (map snd (reported key prox_res)))).
Proof.
  intros Hf Hc Hp.
  destruct (x_average_ok prox_res Hf Hc) as (xbars & E & Hx).
  exists xbars. split; [exact E|]. intros key.
  pose proof (reported_nonempty key prox_res Hc) as Hne.
  pose proof (reported_positive key prox_res Hp) as Hpos.
  specialize (Hx key).
  assert (Hw : Exists (reports_key key) prox_res ->
               xbars !! key = Some (weighted_average (reported key prox_res))).
  { intros Hex. apply Hne in Hex.
    destruct (reported key prox_res) as [|p l] eqn:El; [congruence|].
    rewrite Hx. f_equal. unfold weighted_average.
    apply map_ext. intros s. apply xdiv_finite.
    assert (0 < np_sum (map fst (p :: l))); [|lra].
    apply np_sum_positive; [discriminate|]. now apply Forall_map. }
  repeat split.
  - intros Hno. destruct (reported key prox_res) as [|p l] eqn:El;
      [assumption|]. exfalso. apply Hno, Hne. discriminate.
  - exact Hw.
  - intros Hex rho Hall. rewrite (Hw Hex). f_equal.
    apply Hne in Hex.
    apply (weighted_average_equal_steps rho); try assumption.
    destruct (reported key prox_res) as [|p l]; [congruence|].
    apply Forall_cons in Hall as [<- _]. apply Forall_cons in Hpos as [Hp0 _].
    exact Hp0.
Qed.

(** C3.  [x_average] raises the infeasible-or-unbounded error exactly when
    some report has an infeasible or unbounded status, whatever the other
    reports are; it then returns no mapping, and when no report has such a
    status it returns a mapping and raises nothing.  (Every report gives a
    step size for each variable it gives a value for.) *)
Theorem x_average_infeasible (prox_res : list report) :
  Forall covered prox_res ->
  (x_average prox_res = Raise RuntimeError_infeasible <->
   Exists inf_or_unb prox_res) /\
  (Exists inf_or_unb prox_res ->
   forall xbars, x_average prox_res <> Ok xbars) /\
  (~ Exists inf_or_unb prox_res ->
   exists xbars, x_average prox_res = Ok xbars).
Proof.
  intros Hc.
  assert (Hbad : Exists inf_or_unb prox_res ->
                 x_average prox_res = Raise RuntimeError_infeasible).
  { intros Hex. unfold x_average.
    now rewrite (merge_reports_raise prox_res (∅, ∅) Hc Hex). }
  assert (Hgood : Forall feasible prox_res ->
                  exists xbars, x_average prox_res = Ok xbars).
  { intros Hf. destruct (x_average_ok prox_res Hf Hc) as (xbars & E & _).
    eauto. }
  repeat split.
  - intros E. destruct (feasible_or_not prox_res) as [Hf|Hex]; [|assumption].
    destruct (Hgood Hf) as (xbars & E'). congruence.
  - exact Hbad.
  - intros Hex xbars E. rewrite (Hbad Hex) in E. discriminate.
  - intros Hno. destruct (feasible_or_not prox_res) as [Hf|Hex];
      [auto|contradiction].
Qed.

Lemma optimal_feasible : optimal ∉ INF_OR_UNB.
Proof.
  intros H. unfold INF_OR_UNB in H.
  repeat (apply elem_of_cons in H as [H|H]; [discriminate|]).
  now apply elem_of_nil in H.
Qed.

Lemma two_workers_feasible : Forall feasible two_workers.
Proof. repeat constructor; exact optimal_feasible. Qed.

Lemma singleton_covered (st : status) (key : Z) (s : R) (v : vec) :
  covered (st, {[key := s]}, {[key := v]}).
Proof.
  intros k [w Hw]. apply lookup_singleton_Some in Hw as [<- _].
  rewrite lookup_singleton_eq. eauto.
Qed.

Lemma singleton_positive_steps (st : status) (key : Z) (s : R) (v : vec) :
  0 < s -> positive_steps (st, {[key := s]}, {[key := v]}).
Proof.
  intros Hs k s' Hk. apply lookup_singleton_Some in Hk as [_ <-]. exact Hs.
Qed.

Lemma two_workers_reported :
  reported 7 two_workers = [(1, [5]); (1, [1])].
Proof.
  unfold reported, two_workers. cbn [omap list_omap].
  now rewrite !lookup_singleton_eq.
Qed.

(** The consensus of the two workers is 3. *)
Lemma two_workers_consensus :
  exists xbars, x_average two_workers = Ok xbars /\ xbars !! 7%Z = Some [Fin 3].
Proof.
  destruct (x_average_ok two_workers) as (xbars & E & H).
  - exact two_workers_feasible.
  - repeat constructor; apply singleton_covered.
  - exists xbars. split; [exact E|]. rewrite (H 7%Z), two_workers_reported.
    simpl. destruct (Req_dec_T (1 + (1 + 0)) 0); [lra|].
    do 3 f_equal. lra.
Qed.

Lemma x_average_weighted_witness :
  exists xbars,
    x_average two_workers = Ok xbars /\
    xbars !! 7%Z = Some (mean [[5]; [1]]).
Proof.
  destruct (x_average_weighted two_workers) as (xbars & E & H).
  - exact two_workers_feasible.
  - repeat constructor; apply singleton_covered.
  - repeat constructor; apply singleton_positive_steps; lra.
  - exists xbars. split; [exact E|].
    destruct (H 7%Z) as (_ & _ & Hmean).
    rewrite (Hmean ltac:(left; simpl; rewrite lookup_singleton_eq; eauto) 1).
    + now rewrite two_workers_reported.
    + rewrite two_workers_reported. repeat constructor.
Defined.

Lemma x_average_infeasible_witness :
  x_average ((infeasible, {[7%Z := 1]}, {[7%Z := [5]]}) :: two_workers)
  = Raise RuntimeError_infeasible.
Proof.
  apply x_average_infeasible.
  - repeat constructor; apply singleton_covered.
  - left. simpl. constructor.
Defined.

(** ** The worker: one variable, one round *)

Lemma bind_ok {A B : Type} (m : M A) (f : A -> M B) (l : list event) (b : B) :
  bind m f = (l, Ok b) ->
  exists l1 a l2, m = (l1, Ok a) /\ f a = (l2, Ok b) /\ l = l1 ++ l2.
Proof.
  unfold bind. destruct m as [l1 [a|e]]; [|discriminate].
  destruct (f a) as [l2 r] eqn:E. intros [= <- ->]. eauto 6.
Qed.

Lemma np_div_returns (a b : R) : exists l v, np_div a b = (l, Ok v).
Proof. unfold np_div. eauto. Qed.

Lemma step_ls_returns (p d : vec) : exists l a, step_ls p d = (l, Ok a).
Proof.
  unfold step_ls.
  destruct (np_div_returns (np_sum (vsquare d)) (np_sum (vmul p d)))
    as (l1 & sd & ->).
  destruct (np_div_returns (np_sum (vmul p d)) (np_sum (vsquare p)))
    as (l2 & mg & ->).
  unfold bind, ret. destruct (xgtb (xmul (Fin 2) mg) sd); eauto.
Qed.

Lemma pyclamp_nan (hi lo : xreal) : pymax (pymin NaN hi) lo = NaN.
Proof. unfold pymax, pymin, xgtb. now destruct hi, lo. Qed.

(** Whatever the deltas, a value that [step_spec] returns is [NaN] or a
    positive real. *)
Lemma step_spec_positive (rho : R) (k : Z) (dx dxbar dy dyhat : vec)
    (eps C : R) (l : list event) (v : xreal) :
  0 < rho -> 0 <= C ->
  step_spec rho k dx dxbar dy dyhat eps C = (l, Ok v) -> v <> NaN ->
  exists r, v = Fin r /\ 0 < r.
Proof.
  intros Hrho HC E Hv. unfold step_spec in E.
  destruct (small_norm dx dxbar dy dyhat).
  { injection E as _ <-. eauto. }
  destruct (step_ls_returns dx dyhat) as (la & a & Ea).
  destruct (step_ls_returns dxbar dy) as (lb & b & Eb).
  destruct (np_div_returns (np_sum (vmul dx dyhat)) (norm dx * norm dyhat))
    as (lc & ac & Ec).
  destruct (np_div_returns (np_sum (vmul dxbar dy)) (norm dxbar * norm dy))
    as (ld & bc & Ed).
  unfold step_cor in E. rewrite Ea, Eb, Ec, Ed in E.
  unfold bind, py_div, ret, raise in E.
  destruct (Req_dec_T (1 * IZR (k ^ 2)) 0) as [|Hk2]; [discriminate|].
  assert (Hk : k <> 0%Z).
  { intros ->. apply Hk2. simpl. lra. }
  pose proof (scale_ge_1 k C Hk HC) as Hs.
  destruct (Req_dec_T (1 + C / (1 * IZR (k ^ 2))) 0); [lra|].
  injection E as _ E.
  destruct (clamp_interval rho _ Hrho Hs) as (Hlo & Hlor & Hrhi).
  set (rho_hat := step_safe rho a b ac bc eps) in E.
  clearbody rho_hat.
  assert (Hcase : rho_hat = NaN \/ rho_hat <> NaN)
    by (destruct rho_hat; (now left) || (right; discriminate)).
  destruct Hcase as [Hn|Hn].
  { rewrite Hn, pyclamp_nan in E. congruence. }
  destruct (pyclamp_bounds rho_hat (rho / (1 + C / (1 * IZR (k ^ 2))))
              ((1 + C / (1 * IZR (k ^ 2))) * rho) Hn ltac:(lra))
    as (r & Er & Hr).
  exists r. split; [congruence|lra].
Qed.

Lemma pyclamp_nonzero (c : xreal) (lo hi r : R) :
  lo <> 0 -> (lo < 0 -> hi < 0) ->
  pymax (pymin c (Fin hi)) (Fin lo) = Fin r -> 0 <= r -> 0 < r.
Proof.
  intros Hlo Hhi E Hr. unfold pymax, pymin, xgtb in E.
  destruct c as [x| | |]; simpl in E.
  - unfold Rltb in E. destruct (Rlt_dec hi x); simpl in E; unfold Rltb in E.
    + destruct (Rlt_dec hi lo); injection E as <-; lra.
    + destruct (Rlt_dec x lo); injection E as <-; lra.
  - unfold Rltb in E. destruct (Rlt_dec hi lo); injection E as <-; lra.
  - injection E as <-. lra.
  - discriminate.
Qed.

(** For a positive step size [step_spec] never returns zero: a real that
    it returns is positive as soon as it is not negative, whatever the
    convergence constant. *)
Lemma step_spec_never_zero (rho : R) (k : Z) (dx dxbar dy dyhat : vec)
    (eps C : R) (l : list event) (r : R) :
  0 < rho ->
  step_spec rho k dx dxbar dy dyhat eps C = (l, Ok (Fin r)) -> 0 <= r ->
  0 < r.
Proof.
  intros Hrho E Hr. unfold step_spec in E.
  destruct (small_norm dx dxbar dy dyhat).
  { injection E as _ <-. exact Hrho. }
  destruct (step_ls_returns dx dyhat) as (la & a & Ea).
  destruct (step_ls_returns dxbar dy) as (lb & b & Eb).
  destruct (np_div_returns (np_sum (vmul dx dyhat)) (norm dx * norm dyhat))
    as (lc & ac & Ec).
  destruct (np_div_returns (np_sum (vmul dxbar dy)) (norm dxbar * norm dy))
    as (ld & bc & Ed).
  unfold step_cor in E. rewrite Ea, Eb, Ec, Ed in E.
  unfold bind, py_div, ret, raise in E.
  destruct (Req_dec_T (1 * IZR (k ^ 2)) 0); [discriminate|].
  set (scale := 1 + C / (1 * IZR (k ^ 2))) in *.
  destruct (Req_dec_T scale 0) as [|Hs]; [discriminate|].
  injection E as _ E.
  refine (pyclamp_nonzero _ _ _ _ _ _ E Hr).
  - unfold Rdiv. apply Rmult_integral_contrapositive_currified; [lra|].
    now apply Rinv_neq_0_compat.
  - intros Hlo. destruct (Rlt_dec scale 0) as [Hneg|Hpos]; [nra|].
    assert (0 < / scale) by (apply Rinv_0_lt_compat; lra).
    unfold Rdiv in Hlo. nra.
Qed.

Lemma set_nonneg_ok (a : xreal) (l : list event) (r : R) :
  set_nonneg a = (l, Ok r) -> a = Fin r /\ 0 <= r /\ l = [].
Proof.
  destruct a as [x| | |]; simpl; try discriminate.
  destruct (Rle_dec 0 x); [|discriminate]. intros [= <- <-]. auto.
Qed.

Lemma set_nonneg_Fin (r : R) : 0 <= r -> set_nonneg (Fin r) = ([], Ok r).
Proof. intros H. simpl. destruct (Rle_dec 0 r); [reflexivity|contradiction]. Qed.

Lemma adapt_positive (opts : options) (i : Z) (x xbar y xbar_old y_old : vec)
    (rho : R) (o : baseline) (l : list event) (rho' : R) (o' : baseline) :
  0 < rho ->
  adapt opts i x xbar y xbar_old y_old rho o = (l, Ok (rho', o')) ->
  0 < rho'.
Proof.
  intros Hrho E. unfold adapt in E.
  apply bind_ok in E as (l1 & r & l2 & E1 & E2 & _).
  apply bind_ok in E2 as (l3 & r' & l4 & E3 & E4 & _).
  apply set_nonneg_ok in E3 as (-> & Hr & _).
  injection E4 as _ <- _.
  exact (step_spec_never_zero _ _ _ _ _ _ _ _ _ _ Hrho E1 Hr).
Qed.

Lemma update_key_positive (opts : options) (i : Z) (xbar_new : vec)
    (s : var_state) (o : baseline) (ssq : residual_report)
    (l : list event) (s' : var_state) (o' : baseline)
    (ssq' : residual_report) :
  0 < vs_rho s ->
  update_key opts i xbar_new s o ssq = (l, Ok (s', o', ssq')) ->
  0 < vs_rho s'.
Proof.
  intros Hrho E. unfold update_key in E.
  destruct (vs_x s) as [x|]; [|discriminate].
  destruct (spectral opts); [|injection E as _ <- _ _; exact Hrho].
  destruct (Z.eq_dec (Tf opts) 0%Z); [discriminate|].
  destruct (Z.eq_dec (i mod Tf opts)%Z 1%Z);
    [|injection E as _ <- _ _; exact Hrho].
  apply bind_ok in E as (l1 & [rho' o1] & l2 & E1 & E2 & _).
  injection E2 as _ <- _ _. simpl.
  exact (adapt_positive _ _ _ _ _ _ _ _ _ _ _ _ Hrho E1).
Qed.

Lemma update_keys_positive (opts : options) (i : Z) (xbars : gmap Z vec)
    (vs : list (Z * (var_state * baseline))) (ssq : residual_report)
    (l : list event) (vs' : list (Z * (var_state * baseline)))
    (ssq' : residual_report) :
  Forall positive_rho vs ->
  update_keys opts i xbars vs ssq = (l, Ok (vs', ssq')) ->
  Forall positive_rho vs'.
Proof.
  revert ssq l vs' ssq'.
  induction vs as [|[key [s o]] vs IH]; intros ssq l vs' ssq' Hall E.
  - injection E as _ <- _. constructor.
  - apply Forall_cons in Hall as [Hs Hall]. cbn [update_keys] in E.
    destruct (xbars !! key) as [xbar_new|]; [|discriminate].
    apply bind_ok in E as (l1 & [[s1 o1] ssq1] & l2 & E1 & E2 & _).
    apply bind_ok in E2 as (l3 & [vs2 ssq2] & l4 & E3 & E4 & _).
    injection E4 as _ <- _. constructor.
    + exact (update_key_positive _ _ _ _ _ _ _ _ _ _ Hs E1).
    + exact (IH _ _ _ _ Hall E3).
Qed.

Lemma vadd_vneg (a b : vec) : vadd (vneg a) b = vsub b a.
Proof.
  revert b. induction a as [|x a IH]; intros [|y b]; simpl; try reflexivity.
  f_equal; [lra|apply IH].
Qed.

(** What the loop body does on an adaptation round, once the value that
    [step_spec] returns is known. *)
Lemma update_key_adapt (opts : options) (i : Z) (xbar_new : vec)
    (s : var_state) (o : baseline) (ssq : residual_report) (x : vec)
    (l : list event) (r : R) :
  spectral opts = true -> Tf opts <> 0%Z -> (i mod Tf opts = 1)%Z ->
  vs_x s = Some x ->
  let rho := vs_rho s in
  let y := vadd (vs_y s) (vscale rho (vsub x xbar_new)) in
  let y_old := if value_shares opts then y else vs_y s in
  let yhat := vadd y_old (vscale rho (vsub x (vs_xbar s))) in
  step_spec rho i (vsub x (o_x o)) (vsub (o_xbar o) xbar_new)
    (vsub y (read_y (o_y o) y)) (vsub yhat (o_yhat o))
    (opt_eps opts) (opt_C opts) = (l, Ok (Fin r)) ->
  0 <= r ->
  update_key opts i xbar_new s o ssq =
    (l, Ok ({| vs_x := Some x; vs_xbar := xbar_new; vs_y := y; vs_rho := r |},
            {| o_x := x; o_xbar := xbar_new;
               o_y := if value_shares opts then ParamArray else OwnArray y;
               o_yhat := vadd y_old (vscale r (vsub x (vs_xbar s))) |},
            {| r_primal := r_primal ssq + np_sum (vsquare (vsub x xbar_new));
               r_dual := r_dual ssq
                 + np_sum (vsquare (vscale rho (vsub (vs_xbar s) xbar_new)));
               r_x := r_x ssq + np_sum (vsquare x);
               r_xbar := r_xbar ssq + np_sum (vsquare xbar_new);
               r_y := r_y ssq + np_sum (vsquare y) |})).
Proof.
  intros Hsp HTf Hi Hx rho y y_old yhat E Hr.
  unfold update_key. rewrite Hx, Hsp.
  destruct (Z.eq_dec (Tf opts) 0%Z); [contradiction|].
  destruct (Z.eq_dec (i mod Tf opts)%Z 1%Z); [|contradiction].
  unfold adapt, yhat_value. cbn [e_y_old e_xbar_old].
  rewrite vadd_vneg. fold rho y y_old yhat. rewrite E.
  unfold bind. rewrite (set_nonneg_Fin r Hr). simpl.
  now rewrite !app_nil_r.
Qed.

Lemma adaptation_index_nonzero (i T : Z) : (i mod T = 1)%Z -> i <> 0%Z.
Proof. intros H ->. now rewrite Zmod_0_l in H. Qed.

Lemma np_sum_vsub_self (y : vec) : np_sum (vsquare (vsub y y)) = 0.
Proof.
  unfold np_sum, vsquare, vsub.
  induction y as [|a y IH]; simpl; [reflexivity|]. rewrite IH. lra.
Qed.

(** On an adaptation round with a delta that the guard catches, the
    worker keeps its step size; nothing is raised or logged. *)
Lemma small_deltas_keep_rho (opts : options) (i : Z) (xbar_new : vec)
    (s : var_state) (o : baseline) (ssq : residual_report) (x : vec) :
  spectral opts = true -> Tf opts <> 0%Z -> (i mod Tf opts = 1)%Z ->
  vs_x s = Some x -> 0 <= vs_rho s ->
  let rho := vs_rho s in
  let y := vadd (vs_y s) (vscale rho (vsub x xbar_new)) in
  let y_old := if value_shares opts then y else vs_y s in
  let yhat := vadd y_old (vscale rho (vsub x (vs_xbar s))) in
  small_norm (vsub x (o_x o)) (vsub (o_xbar o) xbar_new)
    (vsub y (read_y (o_y o) y)) (vsub yhat (o_yhat o)) = true ->
  exists s' o' ssq',
    update_key opts i xbar_new s o ssq = ([], Ok (s', o', ssq')) /\
    vs_rho s' = vs_rho s /\ vs_x s' = Some x /\ vs_xbar s' = xbar_new /\
    vs_y s' = y.
Proof.
  intros Hsp HTf Hi Hx Hrho rho y y_old yhat Hg.
  rewrite (update_key_adapt opts i xbar_new s o ssq x [] (vs_rho s)
             Hsp HTf Hi Hx); [|now apply step_spec_guard|exact Hrho].
  do 3 eexists. repeat split.
Qed.

(** When the baseline of [y] is the array of the parameter itself, the
    delta of [y] is zero, the small-norm guard fires and the adaptation
    leaves the step size as it is. *)
Lemma shared_baseline_keeps_rho (opts : options) (i : Z) (xbar_new : vec)
    (s : var_state) (o : baseline) (ssq : residual_report) (x : vec) :
  spectral opts = true -> Tf opts <> 0%Z -> (i mod Tf opts = 1)%Z ->
  vs_x s = Some x -> o_y o = ParamArray -> 0 <= vs_rho s ->
  exists s' o' ssq',
    update_key opts i xbar_new s o ssq = ([], Ok (s', o', ssq')) /\
    vs_rho s' = vs_rho s.
Proof.
  intros Hsp HTf Hi Hx Ho Hrho.
  destruct (small_deltas_keep_rho opts i xbar_new s o ssq x Hsp HTf Hi Hx Hrho)
    as (s' & o' & ssq' & E & Hr & _); [|eauto].
  apply small_norm_true. right. right. left.
  rewrite Ho. simpl. rewrite np_sum_vsub_self. pose proof eps_fl_pos. lra.
Qed.

(** C7.  When one of the four deltas has a squared norm of at most the
    machine epsilon, [step_spec] returns [rho] itself, for every round
    index, threshold and constant; it raises nothing and performs no
    division: the estimates, the correlations and the scale are not
    evaluated, even where their evaluation would raise or divide by
    zero.  The worker that called it keeps its step size and goes on:
    nothing is raised or logged in the round. *)
Theorem step_spec_small_norm :
  (forall rho k dx dxbar dy dyhat eps C,
     np_sum (vsquare dx) <= eps_fl \/ np_sum (vsquare dxbar) <= eps_fl \/
     np_sum (vsquare dy) <= eps_fl \/ np_sum (vsquare dyhat) <= eps_fl ->
     step_spec rho k dx dxbar dy dyhat eps C = ([], Ok (Fin rho))) /\
  (forall opts i xbar_new s o ssq x,
     spectral opts = true -> Tf opts <> 0%Z -> (i mod Tf opts = 1)%Z ->
     vs_x s = Some x -> 0 <= vs_rho s ->
     let rho := vs_rho s in
     let y := vadd (vs_y s) (vscale rho (vsub x xbar_new)) in
     let y_old := if value_shares opts then y else vs_y s in
     let yhat := vadd y_old (vscale rho (vsub x (vs_xbar s))) in
     np_sum (vsquare (vsub x (o_x o))) <= eps_fl \/
     np_sum (vsquare (vsub (o_xbar o) xbar_new)) <= eps_fl \/
     np_sum (vsquare (vsub y (read_y (o_y o) y))) <= eps_fl \/
     np_sum (vsquare (vsub yhat (o_yhat o))) <= eps_fl ->
     exists s' o' ssq',
       update_key opts i xbar_new s o ssq = ([], Ok (s', o', ssq')) /\
       vs_rho s' = vs_rho s).
Proof.
  split.
  - intros rho k dx dxbar dy dyhat eps C H.
    apply step_spec_guard. now apply small_norm_true.
  - intros opts i xbar_new s o ssq x Hsp HTf Hi Hx Hrho rho y y_old yhat H.
    apply small_norm_true in H.
    destruct (small_deltas_keep_rho opts i xbar_new s o ssq x Hsp HTf Hi Hx
                Hrho H) as (s' & o' & ssq' & E & Hr & _).
    eauto.
Qed.

Lemma step_spec_small_norm_witness :
  step_spec 1 0 [0] [1] [1] [1] (2 / 10) 3 = ([], Ok (Fin 1)) /\
  exists s' o' ssq',
    update_key (default_opts false) 1 [5] solved_at_5 zero_baseline ssq_zero
    = ([], Ok (s', o', ssq')) /\
    vs_rho s' = 1.
Proof.
  destruct step_spec_small_norm as [Hstep Hworker]. split.
  - apply Hstep. left. simpl. pose proof eps_fl_pos. lra.
  - apply (Hworker (default_opts false) 1%Z [5] solved_at_5 zero_baseline
             ssq_zero [5]); try reflexivity; simpl; try lra; [discriminate|].
    right. right. left. pose proof eps_fl_pos. lra.
Defined.

(** On an adaptation round [step_spec] returns a real that is not
    negative. *)
Lemma adapter_returns_on_round (opts : options) (i : Z) (xbar_new : vec)
    (s : var_state) (o : baseline) (x : vec) :
  (i mod Tf opts = 1)%Z ->
  0 < vs_rho s -> 0 <= opt_C opts -> 0 <= opt_eps opts ->
  let rho := vs_rho s in
  let y := vadd (vs_y s) (vscale rho (vsub x xbar_new)) in
  let y_old := if value_shares opts then y else vs_y s in
  let yhat := vadd y_old (vscale rho (vsub x (vs_xbar s))) in
  exists l r,
    step_spec rho i (vsub x (o_x o)) (vsub (o_xbar o) xbar_new)
      (vsub y (read_y (o_y o) y)) (vsub yhat (o_yhat o))
      (opt_eps opts) (opt_C opts) = (l, Ok (Fin r)) /\ 0 <= r.
Proof.
  intros Hi Hrho HC Heps rho y y_old yhat.
  pose proof (adaptation_index_nonzero i _ Hi) as Hi0.
  destruct (step_spec_clamped rho i (vsub x (o_x o)) (vsub (o_xbar o) xbar_new)
              (vsub y (read_y (o_y o) y)) (vsub yhat (o_yhat o))
              (opt_eps opts) (opt_C opts) Hrho Hi0 HC Heps)
    as (l & r & E & Hr).
  exists l, r. split; [exact E|].
  pose proof (scale_ge_1 i _ Hi0 HC) as Hs.
  destruct (clamp_interval rho _ Hrho Hs) as (Hlo & _ & _). lra.
Qed.

(** C8 (amended).  On an adaptation round the worker forms
    [yhat = y_old + rho*(x - xbar_old)] with the [xbar] it held before the
    update and the array [y_old] it read from [y] before the update, calls
    [step_spec] with [dx = x - x_base], [dxbar = xbar_base - xbar] (the
    baseline minus the current value), [dy = y - y_base] and
    [dyhat = yhat - yhat_base], stores the value returned as the new
    [rho], and records the current [x], [xbar] and [y] as the new
    baseline.

    The statement gives the whole outcome of the round for the variable,
    so that nothing of it is left open.  [y_old] holds the old [y] when
    reading the value of a parameter gives a copy, and the updated [y]
    when it gives the array of the parameter, which [+=] has changed by
    then; in the same way the baseline of [y] is a copy of the current
    [y] or the array of the parameter itself.  The baseline of [yhat] is
    the value of the expression under the new [rho]; it is the [yhat]
    that was passed to [step_spec] only when [rho] is returned
    unchanged. *)
Theorem adaptation_round (opts : options) (i : Z) (xbar_new : vec)
    (s : var_state) (o : baseline) (ssq : residual_report) (x : vec) :
  spectral opts = true -> Tf opts <> 0%Z -> (i mod Tf opts = 1)%Z ->
  vs_x s = Some x ->
  0 < vs_rho s -> 0 <= opt_C opts -> 0 <= opt_eps opts ->
  let rho := vs_rho s in
  let xbar_old := vs_xbar s in
  let y := vadd (vs_y s) (vscale rho (vsub x xbar_new)) in
  let y_old := if value_shares opts then y else vs_y s in
  let yhat := vadd y_old (vscale rho (vsub x xbar_old)) in
  exists l r,
    step_spec rho i
      (vsub x (o_x o))
      (vsub (o_xbar o) xbar_new)
      (vsub y (read_y (o_y o) y))
      (vsub yhat (o_yhat o))
      (opt_eps opts) (opt_C opts) = (l, Ok (Fin r)) /\
    update_key opts i xbar_new s o ssq =
      (l, Ok ({| vs_x := Some x; vs_xbar := xbar_new; vs_y := y;
                 vs_rho := r |},
              {| o_x := x; o_xbar := xbar_new;
                 o_y := if value_shares opts then ParamArray else OwnArray y;
                 o_yhat := vadd y_old (vscale r (vsub x xbar_old)) |},
              {| r_primal := r_primal ssq + np_sum (vsquare (vsub x xbar_new));
                 r_dual := r_dual ssq
                   + np_sum (vsquare (vscale rho (vsub xbar_old xbar_new)));
                 r_x := r_x ssq + np_sum (vsquare x);
                 r_xbar := r_xbar ssq + np_sum (vsquare xbar_new);
                 r_y := r_y ssq + np_sum (vsquare y) |})).
Proof.
  intros Hsp HTf Hi Hx Hrho HC Heps rho xbar_old y y_old yhat.
  pose proof (adaptation_index_nonzero i _ Hi) as Hi0.
  destruct (step_spec_clamped rho i (vsub x (o_x o)) (vsub (o_xbar o) xbar_new)
              (vsub y (read_y (o_y o) y)) (vsub yhat (o_yhat o))
              (opt_eps opts) (opt_C opts) Hrho Hi0 HC Heps)
    as (l & r & E & Hr).
  assert (Hr0 : 0 <= r).
  { pose proof (scale_ge_1 i _ Hi0 HC) as Hs.
    destruct (clamp_interval rho _ Hrho Hs) as (Hlo & _ & _). lra. }
  exists l, r. split; [exact E|].
  exact (update_key_adapt opts i xbar_new s o ssq x l r Hsp HTf Hi Hx E Hr0).
Qed.

(** ** One-dimensional deltas *)

Lemma eps_fl_lt_1 : eps_fl < 1.
Proof.
  unfold eps_fl. rewrite <- Rinv_1. apply Rinv_lt_contravar.
  - rewrite Rmult_1_l. apply IZR_lt. reflexivity.
  - apply IZR_lt. reflexivity.
Qed.

Lemma norm_singleton (p : R) : norm [p] = Rabs p.
Proof.
  unfold norm. simpl. replace (p * p + 0) with (Rsqr p) by (unfold Rsqr; lra).
  apply sqrt_Rsqr_abs.
Qed.

Lemma step_ls_scalar_pos (p d : R) :
  0 < p * d -> step_ls [p] [d] = ([], Ok (Fin (d / p))).
Proof.
  intros H. assert (p <> 0) by nra. assert (d <> 0) by nra.
  rewrite step_ls_finite by (simpl; nra). simpl.
  replace ((d * d + 0) / (p * d + 0)) with (d / p) by (field; repeat split; (assumption || nra)).
  replace ((p * d + 0) / (p * p + 0)) with (d / p) by (field; repeat split; (assumption || nra)).
  assert (0 < d / p).
  { replace (d / p) with (p * d * / (p * p)) by (field; repeat split; (assumption || nra)).
    apply Rmult_lt_0_compat; [assumption|]. apply Rinv_0_lt_compat. nra. }
  destruct (Rlt_dec (d / p) (2 * (d / p))); [reflexivity|lra].
Qed.

Lemma step_ls_scalar_neg (p d : R) :
  p * d < 0 -> step_ls [p] [d] = ([], Ok (Fin (d / p / 2))).
Proof.
  intros H. assert (p <> 0) by nra. assert (d <> 0) by nra.
  rewrite step_ls_finite by (simpl; nra). simpl.
  replace ((d * d + 0) / (p * d + 0)) with (d / p) by (field; repeat split; (assumption || nra)).
  replace ((p * d + 0) / (p * p + 0)) with (d / p) by (field; repeat split; (assumption || nra)).
  assert (d / p < 0).
  { replace (d / p) with (p * d * / (p * p)) by (field; repeat split; (assumption || nra)).
    assert (0 < / (p * p)) by (apply Rinv_0_lt_compat; nra). nra. }
  destruct (Rlt_dec (d / p) (2 * (d / p))); [lra|]. do 3 f_equal. lra.
Qed.

Lemma step_cor_scalar_pos (p d : R) :
  0 < p * d -> step_cor [p] [d] = ([], Ok (Fin 1)).
Proof.
  intros H. assert (p <> 0) by nra. assert (d <> 0) by nra.
  rewrite step_cor_finite by (simpl; nra).
  rewrite !norm_singleton, <- Rabs_mult, Rabs_pos_eq by lra. simpl.
  do 3 f_equal. field. lra.
Qed.

Lemma step_cor_scalar_neg (p d : R) :
  p * d < 0 -> step_cor [p] [d] = ([], Ok (Fin (-1))).
Proof.
  intros H. assert (p <> 0) by nra. assert (d <> 0) by nra.
  rewrite step_cor_finite by (simpl; nra).
  rewrite !norm_singleton, <- Rabs_mult, Rabs_left by lra. simpl.
  do 3 f_equal. field. lra.
Qed.

Lemma small_norm_scalar (p1 p2 d2 d1 : R) :
  1 <= p1 * p1 -> 1 <= p2 * p2 -> 1 <= d2 * d2 -> 1 <= d1 * d1 ->
  small_norm [p1] [p2] [d2] [d1] = false.
Proof.
  intros. apply small_norm_false. pose proof eps_fl_lt_1. simpl.
  repeat split; lra.
Qed.

Lemma pyclamp_inside (r lo hi : R) :
  lo <= r <= hi -> pymax (pymin (Fin r) (Fin hi)) (Fin lo) = Fin r.
Proof.
  intros [Hlo Hhi]. unfold pymax, pymin, xgtb. simpl.
  assert (E1 : Rltb hi r = false) by (apply Rltb_false; lra). rewrite E1.
  simpl. assert (E2 : Rltb r lo = false) by (apply Rltb_false; lra).
  now rewrite E2.
Qed.

(** The step-size adapter on scalar deltas that pass the guard: the [x]
    pair positively correlated, the [xbar] pair negatively. *)
Lemma step_spec_scalar_pos_neg (rho : R) (k : Z) (p1 p2 d2 d1 eps C : R) :
  1 <= p1 * p1 -> 1 <= p2 * p2 -> 1 <= d2 * d2 -> 1 <= d1 * d1 ->
  0 < p1 * d1 -> p2 * d2 < 0 -> 0 <= eps < 1 ->
  0 < rho -> k <> 0%Z -> 0 <= C ->
  rho / (1 + C / (1 * IZR (k ^ 2))) <= d1 / p1
    <= (1 + C / (1 * IZR (k ^ 2))) * rho ->
  step_spec rho k [p1] [p2] [d2] [d1] eps C = ([], Ok (Fin (d1 / p1))).
Proof.
  intros G1 G2 G3 G4 Ha Hb Heps Hrho Hk HC Hin. unfold step_spec.
  rewrite small_norm_scalar by assumption.
  rewrite (step_ls_scalar_pos p1 d1 Ha), (step_ls_scalar_neg p2 d2 Hb).
  rewrite (step_cor_scalar_pos p1 d1 Ha), (step_cor_scalar_neg p2 d2 Hb).
  pose proof (pow2_IZR_pos k Hk). pose proof (scale_ge_1 k C Hk HC).
  unfold bind, py_div, ret.
  destruct (Req_dec_T (1 * IZR (k ^ 2)) 0); [lra|].
  destruct (Req_dec_T (1 + C / (1 * IZR (k ^ 2))) 0); [lra|].
  simpl. unfold step_safe.
  assert (E1 : xgtb (Fin 1) (Fin eps) = true) by (apply xgtb_Fin; lra).
  assert (E2 : xgtb (Fin (-1)) (Fin eps) = false).
  { unfold xgtb. simpl. apply Rltb_false. lra. }
  assert (E3 : xleb (Fin (-1)) (Fin eps) = true) by (apply xleb_Fin; lra).
  rewrite E1, E2, E3. cbn [andb].
  now rewrite pyclamp_inside by assumption.
Qed.

(** Both pairs positively correlated. *)
Lemma step_spec_scalar_pos_pos (rho : R) (k : Z) (p1 p2 d2 d1 eps C : R) :
  1 <= p1 * p1 -> 1 <= p2 * p2 -> 1 <= d2 * d2 -> 1 <= d1 * d1 ->
  0 < p1 * d1 -> 0 < p2 * d2 -> 0 <= eps < 1 ->
  0 < rho -> k <> 0%Z -> 0 <= C ->
  0 <= d1 / p1 * (d2 / p2) ->
  rho / (1 + C / (1 * IZR (k ^ 2))) <= sqrt (d1 / p1 * (d2 / p2))
    <= (1 + C / (1 * IZR (k ^ 2))) * rho ->
  step_spec rho k [p1] [p2] [d2] [d1] eps C
  = ([], Ok (Fin (sqrt (d1 / p1 * (d2 / p2))))).
Proof.
  intros G1 G2 G3 G4 Ha Hb Heps Hrho Hk HC Hnn Hin. unfold step_spec.
  rewrite small_norm_scalar by assumption.
  rewrite (step_ls_scalar_pos p1 d1 Ha), (step_ls_scalar_pos p2 d2 Hb).
  rewrite (step_cor_scalar_pos p1 d1 Ha), (step_cor_scalar_pos p2 d2 Hb).
  pose proof (pow2_IZR_pos k Hk). pose proof (scale_ge_1 k C Hk HC).
  unfold bind, py_div, ret.
  destruct (Req_dec_T (1 * IZR (k ^ 2)) 0); [lra|].
  destruct (Req_dec_T (1 + C / (1 * IZR (k ^ 2))) 0); [lra|].
  simpl. unfold step_safe.
  assert (E1 : xgtb (Fin 1) (Fin eps) = true) by (apply xgtb_Fin; lra).
  rewrite E1. cbn [andb xmul xsqrt].
  destruct (Rlt_dec (d1 / p1 * (d2 / p2)) 0); [lra|].
  now rewrite pyclamp_inside by assumption.
Qed.

(** ** The first adaptation of a scalar variable *)

Lemma step_spec_first_copy (dx dxbar dy dyhat : R) :
  dx = 5 -> dxbar = -1 -> dy = 4 -> dyhat = 5 ->
  step_spec 1 1 [dx] [dxbar] [dy] [dyhat] (2 / 10) 10000000000
  = ([], Ok (Fin 1)).
Proof.
  intros -> -> -> ->. replace (Fin 1) with (Fin (5 / 5)) by (f_equal; lra).
  apply step_spec_scalar_pos_neg; lra || lia.
Qed.

Lemma step_spec_first_shared (dx dxbar dy dyhat : R) :
  dx = 5 -> dxbar = -1 -> dy = 4 -> dyhat = 9 ->
  step_spec 1 1 [dx] [dxbar] [dy] [dyhat] (2 / 10) 10000000000
  = ([], Ok (Fin (9 / 5))).
Proof.
  intros -> -> -> ->. apply step_spec_scalar_pos_neg; lra || lia.
Qed.

Lemma step_spec_first_specified (dx dxbar dy dyhat : R) :
  dx = 5 -> dxbar = 1 -> dy = 4 -> dyhat = 5 ->
  step_spec 1 1 [dx] [dxbar] [dy] [dyhat] (2 / 10) 10000000000
  = ([], Ok (Fin 2)).
Proof.
  intros -> -> -> ->.
  assert (Es : sqrt (5 / 5 * (4 / 1)) = 2).
  { replace (5 / 5 * (4 / 1)) with (2 * 2) by lra. apply sqrt_square. lra. }
  rewrite <- Es.
  apply step_spec_scalar_pos_pos; lra || lia.
Qed.

Lemma first_adaptation_copy :
  update_key (default_opts false) 1 [1] solved_at_5 zero_baseline ssq_zero
  = ([], Ok ({| vs_x := Some [5]; vs_xbar := [1];
                vs_y := vadd [0] (vscale 1 (vsub [5] [1])); vs_rho := 1 |},
             {| o_x := [5]; o_xbar := [1];
                o_y := OwnArray (vadd [0] (vscale 1 (vsub [5] [1])));
                o_yhat := vadd [0] (vscale 1 (vsub [5] [0])) |},
             {| r_primal := 0 + np_sum (vsquare (vsub [5] [1]));
                r_dual := 0 + np_sum (vsquare (vscale 1 (vsub [0] [1])));
                r_x := 0 + np_sum (vsquare [5]);
                r_xbar := 0 + np_sum (vsquare [1]);
                r_y := 0 + np_sum (vsquare (vadd [0] (vscale 1 (vsub [5] [1]))))
             |})).
Proof.
  apply (update_key_adapt (default_opts false) 1 [1] solved_at_5
           zero_baseline ssq_zero [5] [] 1); try reflexivity; try lra.
  - discriminate.
  - cbn. apply step_spec_first_copy; lra.
Qed.

Lemma first_adaptation_shared :
  update_key (default_opts true) 1 [1] solved_at_5 zero_baseline ssq_zero
  = ([], Ok ({| vs_x := Some [5]; vs_xbar := [1];
                vs_y := vadd [0] (vscale 1 (vsub [5] [1]));
                vs_rho := 9 / 5 |},
             {| o_x := [5]; o_xbar := [1]; o_y := ParamArray;
                o_yhat := vadd (vadd [0] (vscale 1 (vsub [5] [1])))
                               (vscale (9 / 5) (vsub [5] [0])) |},
             {| r_primal := 0 + np_sum (vsquare (vsub [5] [1]));
                r_dual := 0 + np_sum (vsquare (vscale 1 (vsub [0] [1])));
                r_x := 0 + np_sum (vsquare [5]);
                r_xbar := 0 + np_sum (vsquare [1]);
                r_y := 0 + np_sum (vsquare (vadd [0] (vscale 1 (vsub [5] [1]))))
             |})).
Proof.
  apply (update_key_adapt (default_opts true) 1 [1] solved_at_5
           zero_baseline ssq_zero [5] [] (9 / 5)); try reflexivity; try lra.
  - discriminate.
  - cbn. apply step_spec_first_shared; lra.
Qed.

Lemma first_adaptation_specified (shares : bool) :
  adapt_spec (default_opts shares) 1 [1] solved_at_5 zero_baseline [5]
  = ([], Ok (Fin 2)).
Proof.
  unfold adapt_spec. cbn. apply step_spec_first_specified; lra.
Qed.

(** C8, as stated, fails: the new step size is not the one that
    [step_spec] returns on the deltas "current minus baseline".  In round 1
    of a run with the default options, with a variable solved to 5 and a
    consensus of 1, those deltas give 2; the worker, which passes the
    [xbar] delta negated, sets [rho] to 1 (to 9/5 when the array of [y] is
    shared). *)
Lemma adaptation_not_as_specified :
  (~ exists l s' o' q,
       update_key (default_opts false) 1 [1] solved_at_5 zero_baseline
         ssq_zero = (l, Ok (s', o', q)) /\
       outcome (adapt_spec (default_opts false) 1 [1] solved_at_5
                  zero_baseline [5]) = Ok (Fin (vs_rho s'))) /\
  (~ exists l s' o' q,
       update_key (default_opts true) 1 [1] solved_at_5 zero_baseline
         ssq_zero = (l, Ok (s', o', q)) /\
       outcome (adapt_spec (default_opts true) 1 [1] solved_at_5
                  zero_baseline [5]) = Ok (Fin (vs_rho s'))).
Proof.
  split; intros (l & s' & o' & q & E & Hs);
    rewrite first_adaptation_specified in Hs; simpl in Hs.
  - rewrite first_adaptation_copy in E. injection E as _ <- _ _.
    simpl in Hs. injection Hs as Hs. lra.
  - rewrite first_adaptation_shared in E. injection E as _ <- _ _.
    simpl in Hs. injection Hs as Hs. lra.
Qed.

Lemma adaptation_round_witness :
  (exists l r,
     step_spec 1 1 (vsub [5] [0]) (vsub [0] [1])
       (vsub (vadd [0] (vscale 1 (vsub [5] [1]))) [0])
       (vsub (vadd [0] (vscale 1 (vsub [5] [0]))) [0])
       (2 / 10) 10000000000 = (l, Ok (Fin r)) /\
     update_key (default_opts false) 1 [1] solved_at_5 zero_baseline ssq_zero
     = (l, Ok ({| vs_x := Some [5]; vs_xbar := [1];
                  vs_y := vadd [0] (vscale 1 (vsub [5] [1])); vs_rho := r |},
               {| o_x := [5]; o_xbar := [1];
                  o_y := OwnArray (vadd [0] (vscale 1 (vsub [5] [1])));
                  o_yhat := vadd [0] (vscale r (vsub [5] [0])) |},
               {| r_primal := 0 + np_sum (vsquare (vsub [5] [1]));
                  r_dual := 0 + np_sum (vsquare (vscale 1 (vsub [0] [1])));
                  r_x := 0 + np_sum (vsquare [5]);
                  r_xbar := 0 + np_sum (vsquare [1]);
                  r_y := 0 + np_sum (vsquare
                                       (vadd [0] (vscale 1 (vsub [5] [1]))))
               |}))) /\
  (exists l r,
     step_spec 1 1 (vsub [5] [0]) (vsub [0] [1])
       (vsub (vadd [0] (vscale 1 (vsub [5] [1]))) [0])
       (vsub (vadd (vadd [0] (vscale 1 (vsub [5] [1])))
                   (vscale 1 (vsub [5] [0]))) [0])
       (2 / 10) 10000000000 = (l, Ok (Fin r)) /\
     update_key (default_opts true) 1 [1] solved_at_5 zero_baseline ssq_zero
     = (l, Ok ({| vs_x := Some [5]; vs_xbar := [1];
                  vs_y := vadd [0] (vscale 1 (vsub [5] [1])); vs_rho := r |},
               {| o_x := [5]; o_xbar := [1]; o_y := ParamArray;
                  o_yhat := vadd (vadd [0] (vscale 1 (vsub [5] [1])))
                                 (vscale r (vsub [5] [0])) |},
               {| r_primal := 0 + np_sum (vsquare (vsub [5] [1]));
                  r_dual := 0 + np_sum (vsquare (vscale 1 (vsub [0] [1])));
                  r_x := 0 + np_sum (vsquare [5]);
                  r_xbar := 0 + np_sum (vsquare [1]);
                  r_y := 0 + np_sum (vsquare
                                       (vadd [0] (vscale 1 (vsub [5] [1]))))
               |}))).
Proof.
  split.
  - apply (adaptation_round (default_opts false) 1 [1] solved_at_5
             zero_baseline ssq_zero [5]); try reflexivity; simpl; try lra.
    discriminate.
  - apply (adaptation_round (default_opts true) 1 [1] solved_at_5
             zero_baseline ssq_zero [5]); try reflexivity; simpl; try lra.
    discriminate.
Defined.

(** ** Orthogonal deltas pass the guard *)

Lemma norm_unit : norm [1; 0] = 1.
Proof.
  unfold norm. simpl. replace (1 * 1 + (0 * 0 + 0)) with 1 by lra.
  apply sqrt_1.
Qed.

Lemma norm_unit' : norm [0; 1] = 1.
Proof.
  unfold norm. simpl. replace (0 * 0 + (1 * 1 + 0)) with 1 by lra.
  apply sqrt_1.
Qed.

(** Past the guard the divisions by zero are exactly those of the
    steepest-descent quotients of orthogonal pairs; every other divisor is
    positive. *)
Lemma step_spec_division_log (rho : R) (k : Z) (dx dxbar dy dyhat : vec)
    (eps C : R) :
  small_norm dx dxbar dy dyhat = false ->
  fst (step_spec rho k dx dxbar dy dyhat eps C) =
    (if Req_dec_T (np_sum (vmul dx dyhat)) 0
     then [DivByZero (np_sum (vsquare dyhat))] else []) ++
    (if Req_dec_T (np_sum (vmul dxbar dy)) 0
     then [DivByZero (np_sum (vsquare dy))] else []).
Proof.
  intros Hg. unfold step_spec. rewrite Hg.
  apply small_norm_false in Hg. destruct Hg as (Hdx & Hdxbar & Hdy & Hdyhat).
  pose proof eps_fl_pos as He.
  rewrite !step_cor_finite by lra.
  assert (Ha : exists a, step_ls dx dyhat =
            (if Req_dec_T (np_sum (vmul dx dyhat)) 0
             then [DivByZero (np_sum (vsquare dyhat))] else [], Ok a)).
  { destruct (Req_dec_T (np_sum (vmul dx dyhat)) 0).
    - rewrite step_ls_orthogonal by lra. eauto.
    - rewrite step_ls_finite by lra. eauto. }
  assert (Hb : exists b, step_ls dxbar dy =
            (if Req_dec_T (np_sum (vmul dxbar dy)) 0
             then [DivByZero (np_sum (vsquare dy))] else [], Ok b)).
  { destruct (Req_dec_T (np_sum (vmul dxbar dy)) 0).
    - rewrite step_ls_orthogonal by lra. eauto.
    - rewrite step_ls_finite by lra. eauto. }
  destruct Ha as (a & ->). destruct Hb as (b & ->).
  unfold bind, py_div, ret, raise.
  destruct (Req_dec_T (1 * IZR (k ^ 2)) 0); simpl;
    [now rewrite !app_nil_r|].
  destruct (Req_dec_T (1 + C / (1 * IZR (k ^ 2))) 0); simpl;
    now rewrite !app_nil_r.
Qed.

(** C10 fails on the code.  The deltas [dx = (1, 0)], [dyhat = (0, 1)],
    [dxbar = dy = (1, 0)] pass the small-norm guard, yet [sum(dx*dyhat)]
    is zero and the steepest-descent quotient of [step_ls] divides by it:
    [step_spec] performs a division by zero (with dividend 1). *)
Theorem step_spec_divides_by_zero :
  small_norm orth_dx orth_dxbar orth_dy orth_dyhat = false /\
  np_sum (vmul orth_dx orth_dyhat) = 0 /\
  step_ls orth_dx orth_dyhat = ([DivByZero 1], Ok PInf) /\
  step_spec 1 1 orth_dx orth_dxbar orth_dy orth_dyhat (2 / 10) 10000000000
  = ([DivByZero 1], Ok (Fin 1)).
Proof.
  assert (Hg : small_norm orth_dx orth_dxbar orth_dy orth_dyhat = false).
  { apply small_norm_false. pose proof eps_fl_lt_1. simpl. repeat split; lra. }
  assert (Hls : step_ls orth_dx orth_dyhat = ([DivByZero 1], Ok PInf)).
  { rewrite step_ls_orthogonal by (simpl; lra). simpl.
    do 3 f_equal. lra. }
  repeat split; [exact Hg|simpl; lra|exact Hls|].
  unfold step_spec. rewrite Hg, Hls.
  rewrite (step_ls_finite orth_dxbar orth_dy) by (simpl; lra).
  rewrite !step_cor_finite by (simpl; lra).
  unfold orth_dx, orth_dxbar, orth_dy, orth_dyhat.
  rewrite norm_unit, norm_unit'. simpl.
  unfold bind, py_div, ret.
  destruct (Req_dec_T (1 * IZR (1 ^ 2)) 0) as [E|_]; [simpl in E; lra|].
  destruct (Req_dec_T (1 + 10000000000 / (1 * IZR (1 ^ 2))) 0) as [E|_];
    [simpl in E; lra|].
  simpl. f_equal. f_equal.
  unfold step_safe.
  assert (E1 : xgtb (Fin ((1 * 0 + (0 * 1 + 0)) / (1 * 1))) (Fin (2 / 10))
               = false).
  { unfold xgtb. simpl. apply Rltb_false. lra. }
  assert (E2 : xleb (Fin ((1 * 0 + (0 * 1 + 0)) / (1 * 1))) (Fin (2 / 10))
               = true) by (apply xleb_Fin; lra).
  assert (E3 : xgtb (Fin ((1 * 1 + (0 * 0 + 0)) / (1 * 1))) (Fin (2 / 10))
               = true) by (apply xgtb_Fin; lra).
  rewrite E1, E2, E3. cbn [andb].
  destruct (Rlt_dec _ _) as [_|Hn]; [|exfalso; apply Hn; lra].
  replace ((1 * 1 + (0 * 0 + 0)) / (1 * 1 + (0 * 0 + 0))) with 1 by lra.
  apply pyclamp_inside. simpl. lra.
Qed.

(** ** The step size stays positive *)

Lemma update_key_returns (opts : options) (i : Z) (xbar_new : vec)
    (s : var_state) (o : baseline) (ssq : residual_report) :
  is_Some (vs_x s) -> (spectral opts = true -> Tf opts <> 0%Z) ->
  0 < vs_rho s -> 0 <= opt_C opts -> 0 <= opt_eps opts ->
  exists l r, update_key opts i xbar_new s o ssq = (l, Ok r).
Proof.
  intros [x Hx] HTf Hrho HC Heps.
  destruct (spectral opts) eqn:Hsp.
  - specialize (HTf eq_refl).
    destruct (Z.eq_dec (i mod Tf opts)%Z 1%Z) as [Hi|Hi].
    + destruct (adapter_returns_on_round opts i xbar_new s o x Hi Hrho HC Heps)
        as (l & r & E & Hr).
      rewrite (update_key_adapt opts i xbar_new s o ssq x l r Hsp HTf Hi Hx E Hr).
      eauto.
    + unfold update_key. rewrite Hx, Hsp.
      destruct (Z.eq_dec (Tf opts) 0%Z); [contradiction|].
      destruct (Z.eq_dec (i mod Tf opts)%Z 1%Z); [contradiction|].
      unfold ret. eauto.
  - unfold update_key. rewrite Hx, Hsp. unfold ret. eauto.
Qed.

Lemma update_keys_returns (opts : options) (i : Z) (xbars : gmap Z vec)
    (vs : list (Z * (var_state * baseline))) (ssq : residual_report) :
  (spectral opts = true -> Tf opts <> 0%Z) ->
  0 <= opt_C opts -> 0 <= opt_eps opts ->
  Forall (ready xbars) vs ->
  exists l r, update_keys opts i xbars vs ssq = (l, Ok r).
Proof.
  intros HTf HC Heps. revert ssq.
  induction vs as [|[key [s o]] vs IH]; intros ssq Hall.
  - unfold update_keys, ret. eauto.
  - apply Forall_cons in Hall as [(Hx & [xbar_new Hk] & Hrho) Hall].
    cbn [update_keys]. simpl in Hk. rewrite Hk.
    destruct (update_key_returns opts i xbar_new s o ssq Hx HTf Hrho HC Heps)
      as (l1 & [[s1 o1] ssq1] & E1).
    destruct (IH ssq1 Hall) as (l2 & [vs2 ssq2] & E2).
    rewrite E1. unfold bind at 1. rewrite E2. unfold bind, ret. eauto.
Qed.

Lemma worker_step_positive (opts : options)
    (vs vs' : list (Z * (var_state * baseline))) :
  worker_step opts vs vs' -> Forall positive_rho vs -> Forall positive_rho vs'.
Proof.
  intros [ws ws' Hsolve|i xbars l ws ws' ssq' E] Hpos.
  - induction Hsolve as [|e e' ws ws' (_ & _ & _ & _ & Hrho) _ IH];
      [constructor|].
    apply Forall_cons in Hpos as [He Hpos]. constructor; [|now apply IH].
    unfold positive_rho in *. now rewrite Hrho.
  - exact (update_keys_positive _ _ _ _ _ _ _ _ Hpos E).
Qed.

Lemma run_positive (opts : options)
    (vs vs' : list (Z * (var_state * baseline))) :
  rtc (worker_step opts) vs vs' ->
  Forall positive_rho vs -> Forall positive_rho vs'.
Proof.
  induction 1 as [|ws ws1 ws2 Hstep _ IH]; [auto|].
  intros Hpos. apply IH. exact (worker_step_positive opts ws ws1 Hstep Hpos).
Qed.

(** C9.  For a positive step size and a convergence constant that is not
    negative, every value that [step_spec] returns is a positive real,
    unless the arithmetic is undefined and it is NaN; with a threshold
    that is not negative and a round index of at least 1 it does return a
    positive real.  Hence a round of the worker that starts with positive
    step sizes ends with positive step sizes, it does end when the
    variables are solved and the consensus covers them, and the step
    sizes stay positive over any number of solves and rounds. *)
Theorem rho_stays_positive :
  (forall rho k dx dxbar dy dyhat eps C l v,
     0 < rho -> 0 <= C ->
     step_spec rho k dx dxbar dy dyhat eps C = (l, Ok v) -> v <> NaN ->
     exists r, v = Fin r /\ 0 < r) /\
  (forall rho k dx dxbar dy dyhat eps C,
     0 < rho -> (1 <= k)%Z -> 0 <= C -> 0 <= eps ->
     exists l r,
       step_spec rho k dx dxbar dy dyhat eps C = (l, Ok (Fin r)) /\ 0 < r) /\
  (forall opts i xbars vs ssq l vs' ssq',
     Forall positive_rho vs ->
     update_keys opts i xbars vs ssq = (l, Ok (vs', ssq')) ->
     Forall positive_rho vs') /\
  (forall opts i xbars vs ssq,
     (spectral opts = true -> Tf opts <> 0%Z) ->
     0 <= opt_C opts -> 0 <= opt_eps opts -> Forall (ready xbars) vs ->
     exists l vs' ssq',
       update_keys opts i xbars vs ssq = (l, Ok (vs', ssq')) /\
       Forall positive_rho vs') /\
  (forall opts vs vs',
     Forall positive_rho vs -> rtc (worker_step opts) vs vs' ->
     Forall positive_rho vs').
Proof.
  split; [|split; [|split; [|split]]].
  - intros. eapply step_spec_positive; eassumption.
  - intros rho k dx dxbar dy dyhat eps C Hrho Hk HC Heps.
    assert (Hk0 : k <> 0%Z) by lia.
    destruct (step_spec_clamped rho k dx dxbar dy dyhat eps C Hrho Hk0 HC Heps)
      as (l & r & E & Hr).
    exists l, r. split; [exact E|].
    pose proof (scale_ge_1 k C Hk0 HC) as Hs.
    destruct (clamp_interval rho _ Hrho Hs) as (Hlo & _ & _). lra.
  - intros. eapply update_keys_positive; eassumption.
  - intros opts i xbars vs ssq HTf HC Heps Hall.
    destruct (update_keys_returns opts i xbars vs ssq HTf HC Heps Hall)
      as (l & [vs' ssq'] & E).
    exists l, vs', ssq'. split; [exact E|].
    apply (update_keys_positive opts i xbars vs ssq l vs' ssq'); [|exact E].
    eapply Forall_impl; [exact Hall|]. now intros e (_ & _ & H).
  - intros opts vs vs' Hpos Hrun. exact (run_positive opts vs vs' Hrun Hpos).
Qed.

Lemma rho_stays_positive_witness :
  (exists l r,
     step_spec 1 1 [5] [-1] [4] [5] (2 / 10) 10000000000 = (l, Ok (Fin r)) /\
     0 < r) /\
  (exists l vs' ssq',
     update_keys (default_opts false) 1 {[7%Z := [1]]}
       [(7%Z, (solved_at_5, zero_baseline))] ssq_zero = (l, Ok (vs', ssq')) /\
     Forall positive_rho vs').
Proof.
  destruct rho_stays_positive as (_ & Hstep & _ & Hround & _). split.
  - apply Hstep; lra || lia.
  - apply Hround; simpl; try lra; [discriminate|].
    constructor; [|constructor]. split; [|split].
    + simpl. eauto.
    + simpl. rewrite lookup_singleton_eq. eauto.
    + unfold positive_rho. simpl. lra.
Defined.

(** ** Initial step sizes *)

Lemma foldl_rho_entry_lookup (rho_init : gmap Z R) (dflt : R)
    (prob : list variable) (m0 : gmap Z R) (id : Z) :
  foldl (rho_entry rho_init dflt) m0 prob !! id =
    if decide (id ∈ map var_id prob) then Some (assigned rho_init dflt id)
    else m0 !! id.
Proof.
  revert m0. induction prob as [|v rest IH]; intros m0; simpl.
  - destruct (decide (id ∈ [])) as [H|_]; [now apply elem_of_nil in H|].
    reflexivity.
  - rewrite IH. unfold rho_entry at 1.
    destruct (decide (id ∈ map var_id rest)) as [Hin|Hout].
    + rewrite decide_True by (now right). reflexivity.
    + destruct (decide (id = var_id v)) as [->|Hne].
      * rewrite decide_True by (now left). now rewrite lookup_insert_eq.
      * rewrite lookup_insert_ne by congruence.
        rewrite decide_False; [reflexivity|].
        intros H. apply elem_of_cons in H as [H|H]; congruence.
Qed.

(** X1.  [assign_rho] returns one dictionary per problem; the dictionary
    of a problem has an entry exactly for the ids of the variables of that
    problem, and the entry is the value of [rho_init] for the id when
    there is one, and the default otherwise. *)
Theorem assign_rho_lookup (p_list : list (list variable))
    (rho_init : gmap Z R) (dflt : R) (j : nat) (prob : list variable) :
  p_list !! j = Some prob ->
  length (assign_rho p_list rho_init dflt) = length p_list /\
  exists m,
    assign_rho p_list rho_init dflt !! j = Some m /\
    forall id,
      m !! id =
        if decide (id ∈ map var_id prob)
        then Some (default dflt (rho_init !! id))
        else None.
Proof.
  intros Hj. unfold assign_rho. split; [apply length_map|].
  eexists. split.
  - rewrite list_lookup_fmap, Hj. reflexivity.
  - intros id. rewrite foldl_rho_entry_lookup, lookup_empty. reflexivity.
Qed.

Lemma assign_rho_lookup_witness :
  exists m,
    assign_rho [[ {| var_id := 7; var_size := 1 |} ]] {[7%Z := 2]} 1 !! 0%nat
      = Some m /\
    m !! 7%Z = Some 2 /\ m !! 8%Z = None.
Proof.
  destruct (assign_rho_lookup [[ {| var_id := 7; var_size := 1 |} ]]
              {[7%Z := 2]} 1 0 [ {| var_id := 7; var_size := 1 |} ] eq_refl)
    as (_ & m & E & H).
  exists m. split; [exact E|]. split.
  - rewrite H, decide_True by (simpl; now left).
    now rewrite lookup_singleton_eq.
  - rewrite H, decide_False; [reflexivity|].
    simpl. intros Hin. apply elem_of_cons in Hin as [Hin|Hin];
      [discriminate|now apply elem_of_nil in Hin].
Defined.

(** X2.  A scalar [rho_init] becomes the step size of every variable of
    every problem; with a dictionary, a variable gets its entry, and 1.0
    when it has none. *)
Theorem rho_list_values (p_list : list (list variable)) (arg : rho_arg)
    (j : nat) (prob : list variable) (var : variable) :
  p_list !! j = Some prob -> var ∈ prob ->
  exists m,
    rho_list p_list arg !! j = Some m /\
    m !! var_id var =
      Some match arg with
           | RhoScalar r => r
           | RhoDict d => default 1 (d !! var_id var)
           end.
Proof.
  intros Hj Hin.
  assert (Hid : var_id var ∈ map var_id prob).
  { apply list_elem_of_fmap. eauto. }
  destruct arg as [r|d]; unfold rho_list, assign_rho;
    (eexists; split; [rewrite list_lookup_fmap, Hj; reflexivity|]);
    rewrite foldl_rho_entry_lookup, decide_True by assumption;
    unfold assigned; [now rewrite lookup_empty|reflexivity].
Qed.

Lemma rho_list_values_witness :
  exists m,
    rho_list [[ {| var_id := 7; var_size := 1 |} ]] (RhoScalar 3) !! 0%nat
      = Some m /\
    m !! 7%Z = Some 3.
Proof.
  apply (rho_list_values [[ {| var_id := 7; var_size := 1 |} ]] (RhoScalar 3)
           0 [ {| var_id := 7; var_size := 1 |} ]
           {| var_id := 7; var_size := 1 |}); [reflexivity|now left].
Defined.

(** ** The initial state of a worker *)

Lemma fresh_state_init (rho : R) (var : variable) :
  (var_id var,
   ({| vs_x := None; vs_xbar := zeros (var_size var);
       vs_y := zeros (var_size var); vs_rho := rho |},
    initial_baseline
      {| vs_x := None; vs_xbar := zeros (var_size var);
         vs_y := zeros (var_size var); vs_rho := rho |}))
  = fresh_state rho var.
Proof.
  unfold fresh_state, initial_baseline, zeros. simpl.
  now rewrite !length_replicate.
Qed.

Lemma prox_step_vmap_ok (prob : list variable) (m : gmap Z R)
    (a : Z -> R) :
  (forall v, v ∈ prob -> m !! var_id v = Some (a (var_id v))) ->
  Forall (fun v => 0 <= a (var_id v)) prob ->
  prox_step_vmap prob m =
    ([], Ok (map (fun v =>
                    (var_id v,
                     {| vs_x := None; vs_xbar := zeros (var_size v);
                        vs_y := zeros (var_size v);
                        vs_rho := a (var_id v) |})) prob)).
Proof.
  induction prob as [|v rest IH]; intros Hm Hall; [reflexivity|].
  apply Forall_cons in Hall as [Hv Hall]. cbn [prox_step_vmap].
  rewrite (Hm v) by (now left). rewrite (set_nonneg_Fin _ Hv).
  unfold bind at 1. rewrite IH; [reflexivity| |assumption].
  intros w Hw. apply Hm. now right.
Qed.

Lemma prox_step_vmap_negative (prob : list variable) (m : gmap Z R)
    (a : Z -> R) :
  (forall v, v ∈ prob -> m !! var_id v = Some (a (var_id v))) ->
  ~ Forall (fun v => 0 <= a (var_id v)) prob ->
  prox_step_vmap prob m = ([], Raise ValueError).
Proof.
  induction prob as [|v rest IH]; intros Hm Hnot.
  - exfalso. apply Hnot. constructor.
  - cbn [prox_step_vmap]. rewrite (Hm v) by (now left).
    destruct (Rle_dec 0 (a (var_id v))) as [Hv|Hv].
    + rewrite (set_nonneg_Fin _ Hv). unfold bind at 1.
      rewrite IH; [reflexivity| |].
      * intros w Hw. apply Hm. now right.
      * intros Hall. apply Hnot. now constructor.
    + simpl. destruct (Rle_dec 0 (a (var_id v))); [contradiction|].
      reflexivity.
Qed.

Lemma assign_rho_covers (p_list : list (list variable)) (rho_init : gmap Z R)
    (dflt : R) (j : nat) (prob : list variable) (m : gmap Z R) :
  p_list !! j = Some prob -> assign_rho p_list rho_init dflt !! j = Some m ->
  forall v, v ∈ prob -> m !! var_id v = Some (assigned rho_init dflt (var_id v)).
Proof.
  intros Hj Hm v Hv. unfold assign_rho in Hm.
  rewrite list_lookup_fmap, Hj in Hm. injection Hm as <-.
  rewrite foldl_rho_entry_lookup, decide_True; [reflexivity|].
  apply list_elem_of_fmap. eauto.
Qed.

Lemma worker_init_ok (prob : list variable) (m : gmap Z R) (a : Z -> R) :
  (forall v, v ∈ prob -> m !! var_id v = Some (a (var_id v))) ->
  Forall (fun v => 0 <= a (var_id v)) prob ->
  worker_init prob m =
    ([], Ok (map (fun v => fresh_state (a (var_id v)) v) prob)).
Proof.
  intros Hm Hall. unfold worker_init.
  rewrite (prox_step_vmap_ok prob m a Hm Hall). unfold bind, ret. simpl.
  do 2 f_equal. rewrite map_map. apply map_ext. intros v. simpl.
  apply fresh_state_init.
Qed.

(** X3.  With the step sizes that [assign_rho] made for a problem,
    [prox_step] finds a step size for every variable: it never raises
    [KeyError].  When no assigned step size is negative, the worker starts
    with one entry per variable, in their order, whose [x] has no value,
    whose [xbar], [y] and baseline are zero arrays of the shape of the
    variable and whose [rho] is the assigned step size; otherwise the
    parameter rejects the negative value with [ValueError]. *)
Theorem worker_init_assigned (p_list : list (list variable))
    (rho_init : gmap Z R) (dflt : R) (j : nat) (prob : list variable)
    (m : gmap Z R) :
  p_list !! j = Some prob -> assign_rho p_list rho_init dflt !! j = Some m ->
  (Forall (fun v => 0 <= assigned rho_init dflt (var_id v)) prob ->
   worker_init prob m =
     ([], Ok (map (fun v => fresh_state (assigned rho_init dflt (var_id v)) v)
                  prob))) /\
  (~ Forall (fun v => 0 <= assigned rho_init dflt (var_id v)) prob ->
   worker_init prob m = ([], Raise ValueError)) /\
  outcome (worker_init prob m) <> Raise KeyError.
Proof.
  intros Hj Hm.
  pose proof (assign_rho_covers p_list rho_init dflt j prob m Hj Hm) as Hcov.
  assert (Hneg : ~ Forall (fun v => 0 <= assigned rho_init dflt (var_id v)) prob ->
                 worker_init prob m = ([], Raise ValueError)).
  { intros Hnot. unfold worker_init.
    now rewrite (prox_step_vmap_negative prob m _ Hcov Hnot). }
  split; [|split].
  - intros Hall. exact (worker_init_ok prob m _ Hcov Hall).
  - exact Hneg.
  - destruct (List.Forall_dec (fun v => 0 <= assigned rho_init dflt (var_id v))
                (fun v => Rle_dec 0 (assigned rho_init dflt (var_id v))) prob)
      as [Hall|Hnot].
    + rewrite (worker_init_ok prob m _ Hcov Hall). discriminate.
    + rewrite (Hneg Hnot). discriminate.
Qed.

Lemma worker_init_assigned_witness :
  worker_init [ {| var_id := 7; var_size := 2 |} ]
    (foldl (rho_entry ∅ 1) ∅ [ {| var_id := 7; var_size := 2 |} ])
  = ([], Ok [fresh_state (assigned ∅ 1 7) {| var_id := 7; var_size := 2 |}]).
Proof.
  apply (worker_init_assigned [[ {| var_id := 7; var_size := 2 |} ]] ∅ 1 0
           [ {| var_id := 7; var_size := 2 |} ]); try reflexivity.
  repeat constructor. unfold assigned. simpl. rewrite lookup_empty. simpl. lra.
Defined.

Lemma fresh_state_positive (a : Z -> R) (prob : list variable) :
  Forall (fun v => 0 < a (var_id v)) prob ->
  Forall positive_rho (map (fun v => fresh_state (a (var_id v)) v) prob).
Proof.
  intros H. apply Forall_map. eapply Forall_impl; [exact H|].
  intros v Hv. exact Hv.
Qed.

(** X4.  When the assigned step sizes of a problem are positive, the
    worker enters its loop with positive step sizes, and they stay
    positive after any number of solves and rounds, whatever the
    consensus values, the round indices and the spectral options are. *)
Theorem positive_from_start (p_list : list (list variable))
    (rho_init : gmap Z R) (dflt : R) (j : nat) (prob : list variable)
    (m : gmap Z R) :
  p_list !! j = Some prob -> assign_rho p_list rho_init dflt !! j = Some m ->
  Forall (fun v => 0 < assigned rho_init dflt (var_id v)) prob ->
  exists vs0,
    worker_init prob m = ([], Ok vs0) /\
    forall opts vs, rtc (worker_step opts) vs0 vs -> Forall positive_rho vs.
Proof.
  intros Hj Hm Hpos.
  pose proof (assign_rho_covers p_list rho_init dflt j prob m Hj Hm) as Hcov.
  eexists. split.
  - apply (worker_init_ok prob m _ Hcov).
    eapply Forall_impl; [exact Hpos|]. intros v Hv. simpl in Hv. lra.
  - intros opts vs Hrun. apply (run_positive opts _ vs Hrun).
    now apply fresh_state_positive.
Qed.

Lemma positive_from_start_witness :
  exists vs0,
    worker_init [ {| var_id := 7; var_size := 2 |} ]
      (foldl (rho_entry ∅ 1) ∅ [ {| var_id := 7; var_size := 2 |} ])
    = ([], Ok vs0) /\
    forall opts vs, rtc (worker_step opts) vs0 vs -> Forall positive_rho vs.
Proof.
  apply (positive_from_start [[ {| var_id := 7; var_size := 2 |} ]] ∅ 1 0
           [ {| var_id := 7; var_size := 2 |} ]); try reflexivity.
  repeat constructor. unfold assigned. simpl. rewrite lookup_empty. simpl. lra.
Defined.

(** ** A round of the worker, whatever the options *)

Lemma update_key_inv (opts : options) (i : Z) (xbar_new : vec)
    (s : var_state) (o : baseline) (ssq : residual_report)
    (l : list event) (s' : var_state) (o' : baseline)
    (ssq' : residual_report) :
  update_key opts i xbar_new s o ssq = (l, Ok (s', o', ssq')) ->
  exists x,
    vs_x s = Some x /\ vs_x s' = Some x /\ vs_xbar s' = xbar_new /\
    vs_y s' = vadd (vs_y s) (vscale (vs_rho s) (vsub x xbar_new)) /\
    ssq' =
      {| r_primal := r_primal ssq + np_sum (vsquare (vsub x xbar_new));
         r_dual := r_dual ssq
           + np_sum (vsquare (vscale (vs_rho s) (vsub (vs_xbar s) xbar_new)));
         r_x := r_x ssq + np_sum (vsquare x);
         r_xbar := r_xbar ssq + np_sum (vsquare xbar_new);
         r_y := r_y ssq
           + np_sum (vsquare (vadd (vs_y s)
                                (vscale (vs_rho s) (vsub x xbar_new)))) |}.
Proof.
  intros E. unfold update_key in E.
  destruct (vs_x s) as [x|]; [|discriminate]. exists x.
  destruct (spectral opts).
  - destruct (Z.eq_dec (Tf opts) 0%Z); [discriminate|].
    destruct (Z.eq_dec (i mod Tf opts)%Z 1%Z).
    + apply bind_ok in E as (l1 & [rho' o1] & l2 & _ & E2 & _).
      injection E2 as _ <- _ <-. repeat split.
    + injection E as _ <- _ <-. repeat split.
  - injection E as _ <- _ <-. repeat split.
Qed.

Lemma update_keys_cons (opts : options) (i : Z) (xbars : gmap Z vec)
    (key : Z) (s : var_state) (o : baseline)
    (rest : list (Z * (var_state * baseline))) (ssq : residual_report)
    (l : list event) (vs' : list (Z * (var_state * baseline)))
    (ssq' : residual_report) :
  update_keys opts i xbars ((key, (s, o)) :: rest) ssq = (l, Ok (vs', ssq')) ->
  exists xbar_new l1 s1 o1 ssq1 l2 rest',
    xbars !! key = Some xbar_new /\
    update_key opts i xbar_new s o ssq = (l1, Ok (s1, o1, ssq1)) /\
    update_keys opts i xbars rest ssq1 = (l2, Ok (rest', ssq')) /\
    vs' = (key, (s1, o1)) :: rest' /\ l = l1 ++ l2.
Proof.
  intros E. cbn [update_keys] in E.
  destruct (xbars !! key) as [xbar_new|]; [|discriminate].
  apply bind_ok in E as (l1 & [[s1 o1] ssq1] & l2 & E1 & E2 & ->).
  apply bind_ok in E2 as (l3 & [rest' ssq2] & l4 & E3 & E4 & ->).
  injection E4 as <- <- <-. rewrite app_nil_r.
  exists xbar_new, l1, s1, o1, ssq1, l3, rest'. auto.
Qed.

Lemma example_round_returns (shares : bool) (i : Z) :
  exists l r,
    update_keys (default_opts shares) i {[7%Z := [1]]}
      [(7%Z, (solved_at_5, zero_baseline))] ssq_zero = (l, Ok r).
Proof.
  apply update_keys_returns; simpl; try lra; [discriminate|].
  constructor; [|constructor]. split; [|split].
  - simpl. eauto.
  - simpl. rewrite lookup_singleton_eq. eauto.
  - unfold positive_rho. simpl. lra.
Qed.

Lemma ssq_le_refl (a : residual_report) : ssq_le a a.
Proof. unfold ssq_le. repeat split; lra. Qed.

Lemma ssq_le_trans (a b c : residual_report) :
  ssq_le a b -> ssq_le b c -> ssq_le a c.
Proof. unfold ssq_le. intros (?&?&?&?&?) (?&?&?&?&?). repeat split; lra. Qed.

Lemma update_keys_ssq_le (opts : options) (i : Z) (xbars : gmap Z vec)
    (vs : list (Z * (var_state * baseline))) (ssq : residual_report)
    (l : list event) (vs' : list (Z * (var_state * baseline)))
    (ssq' : residual_report) :
  update_keys opts i xbars vs ssq = (l, Ok (vs', ssq')) -> ssq_le ssq ssq'.
Proof.
  revert ssq l vs' ssq'.
  induction vs as [|[key [s o]] rest IH]; intros ssq l vs' ssq' E.
  - injection E as _ _ <-. apply ssq_le_refl.
  - apply update_keys_cons in E
      as (xbar_new & l1 & s1 & o1 & ssq1 & l2 & rest' & _ & E1 & E2 & _ & _).
    apply (ssq_le_trans _ ssq1); [|exact (IH _ _ _ _ E2)].
    apply update_key_inv in E1 as (x & _ & _ & _ & _ & ->).
    unfold ssq_le. simpl.
    pose proof (np_sum_vsquare_nonneg (vsub x xbar_new)).
    pose proof (np_sum_vsquare_nonneg
                  (vscale (vs_rho s) (vsub (vs_xbar s) xbar_new))).
    pose proof (np_sum_vsquare_nonneg x).
    pose proof (np_sum_vsquare_nonneg xbar_new).
    pose proof (np_sum_vsquare_nonneg
                  (vadd (vs_y s) (vscale (vs_rho s) (vsub x xbar_new)))).
    repeat split; lra.
Qed.

(** X5.  The residual sums only grow while a round goes through the
    variables: every sum that the worker sends is at least the sum the
    round started with, so the sums of a round, which start at zero, are
    not negative. *)
Theorem update_keys_ssq_grows (opts : options) (i : Z) (xbars : gmap Z vec)
    (vs : list (Z * (var_state * baseline))) (ssq : residual_report)
    (l : list event) (vs' : list (Z * (var_state * baseline)))
    (ssq' : residual_report) :
  update_keys opts i xbars vs ssq = (l, Ok (vs', ssq')) ->
  ssq_le ssq ssq' /\
  (ssq = ssq_zero ->
   0 <= r_primal ssq' /\ 0 <= r_dual ssq' /\ 0 <= r_x ssq' /\
   0 <= r_xbar ssq' /\ 0 <= r_y ssq').
Proof.
  intros E. pose proof (update_keys_ssq_le _ _ _ _ _ _ _ _ E) as Hle.
  split; [exact Hle|]. intros ->.
  destruct Hle as (H1 & H2 & H3 & H4 & H5). simpl in H1, H2, H3, H4, H5.
  repeat split; assumption.
Qed.

Lemma update_keys_ssq_grows_witness :
  exists l vs' ssq',
    update_keys (default_opts false) 1 {[7%Z := [1]]}
      [(7%Z, (solved_at_5, zero_baseline))] ssq_zero = (l, Ok (vs', ssq')) /\
    ssq_le ssq_zero ssq' /\ 0 <= r_primal ssq'.
Proof.
  destruct (example_round_returns false 1) as (l & [vs' ssq'] & E).
  exists l, vs', ssq'. split; [exact E|].
  destruct (update_keys_ssq_grows _ _ _ _ _ _ _ _ E) as (Hle & H).
  split; [exact Hle|]. apply H. reflexivity.
Defined.

Lemma update_keys_round (opts : options) (i : Z) (xbars : gmap Z vec)
    (vs : list (Z * (var_state * baseline))) (ssq : residual_report)
    (l : list event) (vs' : list (Z * (var_state * baseline)))
    (ssq' : residual_report) :
  update_keys opts i xbars vs ssq = (l, Ok (vs', ssq')) ->
  Forall2 (round_update xbars) vs vs'.
Proof.
  revert ssq l vs' ssq'.
  induction vs as [|[key [s o]] rest IH]; intros ssq l vs' ssq' E.
  - injection E as _ <- _. constructor.
  - apply update_keys_cons in E
      as (xbar_new & l1 & s1 & o1 & ssq1 & l2 & rest' & Hk & E1 & E2 & -> & _).
    constructor; [|exact (IH _ _ _ _ E2)].
    apply update_key_inv in E1 as (x & Hx & Hx' & Hxbar & Hy & _).
    split; [reflexivity|]. exists x, xbar_new. simpl. auto.
Qed.

(** X6.  A round that goes through changes every variable in the same
    way, with or without adaptation: the variable keeps its key, its place
    and its value [x], [xbar] becomes the consensus received for the key,
    and [y] becomes [y + rho*(x - xbar)] with the new [xbar] and the step
    size from before the round.  In particular a round only goes through
    when every variable is solved and has a consensus value. *)
Theorem round_updates_duals (opts : options) (i : Z) (xbars : gmap Z vec)
    (vs : list (Z * (var_state * baseline))) (ssq : residual_report)
    (l : list event) (vs' : list (Z * (var_state * baseline)))
    (ssq' : residual_report) :
  update_keys opts i xbars vs ssq = (l, Ok (vs', ssq')) ->
  Forall2 (round_update xbars) vs vs' /\
  map fst vs' = map fst vs /\
  Forall (updatable xbars) vs.
Proof.
  intros E. pose proof (update_keys_round _ _ _ _ _ _ _ _ E) as H.
  clear E. split; [exact H|]. split.
  - induction H as [|e e' ws ws' (Hk & _) _ IH]; [reflexivity|].
    simpl. now rewrite Hk, IH.
  - induction H as [|e e' ws ws' (_ & x & xb & Hx & Hxb & _) _ IH];
      constructor; [|exact IH].
    split; [rewrite Hx|rewrite Hxb]; eauto.
Qed.

Lemma round_updates_duals_witness :
  exists l vs' ssq',
    update_keys (default_opts false) 1 {[7%Z := [1]]}
      [(7%Z, (solved_at_5, zero_baseline))] ssq_zero = (l, Ok (vs', ssq')) /\
    Forall2 (round_update {[7%Z := [1]]})
      [(7%Z, (solved_at_5, zero_baseline))] vs' /\
    map fst vs' = [7%Z].
Proof.
  destruct (example_round_returns false 1) as (l & [vs' ssq'] & E).
  exists l, vs', ssq'. split; [exact E|].
  destruct (round_updates_duals _ _ _ _ _ _ _ _ E) as (H1 & H2 & _).
  split; [exact H1|exact H2].
Defined.

(** ** Rounds without adaptation *)

Lemma update_key_plain (opts : options) (i : Z) (xbar_new : vec)
    (s : var_state) (o : baseline) (ssq : residual_report) (x : vec) :
  spectral opts = false \/ (Tf opts <> 0%Z /\ (i mod Tf opts)%Z <> 1%Z) ->
  vs_x s = Some x ->
  update_key opts i xbar_new s o ssq =
    ([], Ok ({| vs_x := Some x; vs_xbar := xbar_new;
                vs_y := vadd (vs_y s) (vscale (vs_rho s) (vsub x xbar_new));
                vs_rho := vs_rho s |}, o,
             {| r_primal := r_primal ssq + np_sum (vsquare (vsub x xbar_new));
                r_dual := r_dual ssq
                  + np_sum (vsquare (vscale (vs_rho s)
                                       (vsub (vs_xbar s) xbar_new)));
                r_x := r_x ssq + np_sum (vsquare x);
                r_xbar := r_xbar ssq + np_sum (vsquare xbar_new);
                r_y := r_y ssq
                  + np_sum (vsquare (vadd (vs_y s)
                                       (vscale (vs_rho s)
                                          (vsub x xbar_new)))) |})).
Proof.
  intros Hplain Hx. unfold update_key. rewrite Hx.
  destruct (spectral opts).
  - destruct Hplain as [Hsp|[HTf Hi]]; [discriminate|].
    destruct (Z.eq_dec (Tf opts) 0%Z); [contradiction|].
    destruct (Z.eq_dec (i mod Tf opts)%Z 1%Z); [contradiction|]. reflexivity.
  - reflexivity.
Qed.

Lemma update_key_raises_unsolved (opts : options) (i : Z) (xbar_new : vec)
    (s : var_state) (o : baseline) (ssq : residual_report) :
  vs_x s = None ->
  update_key opts i xbar_new s o ssq = ([], Raise TypeError).
Proof. intros Hx. unfold update_key. now rewrite Hx. Qed.



(** ** A round at the consensus *)

Lemma vsub_self (x : vec) : vsub x x = zeros (length x).
Proof.
  unfold vsub, zeros. induction x as [|a x IH]; [reflexivity|].
  simpl. rewrite IH. f_equal. lra.
Qed.

Lemma vscale_zeros (r : R) (n : nat) : vscale r (zeros n) = zeros n.
Proof.
  unfold vscale, zeros. induction n as [|n IH]; [reflexivity|].
  simpl. rewrite IH. f_equal. lra.
Qed.

Lemma vadd_zeros (y : vec) : vadd y (zeros (length y)) = y.
Proof.
  unfold vadd, zeros. induction y as [|a y IH]; [reflexivity|].
  simpl. rewrite IH. f_equal. lra.
Qed.

Lemma np_sum_vsquare_zeros (n : nat) : np_sum (vsquare (zeros n)) = 0.
Proof.
  unfold np_sum, vsquare, zeros. induction n as [|n IH]; [reflexivity|].
  simpl. rewrite IH. lra.
Qed.

Lemma update_key_fixed_point (opts : options) (i : Z) (x : vec)
    (s : var_state) (o : baseline) (ssq : residual_report)
    (l : list event) (s' : var_state) (o' : baseline)
    (ssq' : residual_report) :
  vs_x s = Some x -> vs_xbar s = x -> length (vs_y s) = length x ->
  update_key opts i x s o ssq = (l, Ok (s', o', ssq')) ->
  vs_xbar s' = vs_xbar s /\ vs_y s' = vs_y s /\
  r_primal ssq' = r_primal ssq /\ r_dual ssq' = r_dual ssq.
Proof.
  intros Hx Hxbar Hlen E.
  apply update_key_inv in E as (x' & Hx' & _ & Hxbar' & Hy' & ->).
  rewrite Hx in Hx'. injection Hx' as <-.
  simpl. rewrite Hxbar, Hxbar', Hy'.
  rewrite vsub_self, vscale_zeros, np_sum_vsquare_zeros, <- Hlen.
  repeat split; try lra. apply vadd_zeros.
Qed.

(** X8.  The consensus is a fixed point of the dual update: when the
    consensus received for every variable equals the value of the
    variable and the [xbar] it already holds, a round that goes through
    leaves [xbar] and [y] of every variable as they were and adds nothing
    to the primal and dual sums. *)
Theorem round_at_consensus (opts : options) (i : Z) (xbars : gmap Z vec)
    (vs : list (Z * (var_state * baseline))) (ssq : residual_report)
    (l : list event) (vs' : list (Z * (var_state * baseline)))
    (ssq' : residual_report) :
  Forall (at_consensus xbars) vs ->
  update_keys opts i xbars vs ssq = (l, Ok (vs', ssq')) ->
  Forall2 same_dual vs vs' /\
  r_primal ssq' = r_primal ssq /\ r_dual ssq' = r_dual ssq.
Proof.
  revert ssq l vs' ssq'.
  induction vs as [|[key [s o]] rest IH]; intros ssq l vs' ssq' Hall E.
  - injection E as _ <- <-. repeat split. constructor.
  - apply Forall_cons in Hall as [(x & Hx & Hk & Hxbar & Hlen) Hall].
    simpl in Hx, Hk, Hxbar, Hlen.
    apply update_keys_cons in E
      as (xbar_new & l1 & s1 & o1 & ssq1 & l2 & rest' & Hk' & E1 & E2 & -> & _).
    rewrite Hk in Hk'. injection Hk' as <-.
    destruct (IH _ _ _ _ Hall E2) as (Hrest & Hp & Hd).
    destruct (update_key_fixed_point _ _ _ _ _ _ _ _ _ _ Hx Hxbar Hlen E1)
      as (Hb & Hy & Hp1 & Hd1).
    split; [|split; congruence].
    constructor; [|exact Hrest]. split; simpl; assumption.
Qed.

Lemma round_at_consensus_witness :
  exists l vs' ssq',
    update_keys (default_opts false) 2 {[7%Z := [5]]}
      [(7%Z, ({| vs_x := Some [5]; vs_xbar := [5]; vs_y := [3];
                 vs_rho := 1 |}, zero_baseline))] ssq_zero
    = (l, Ok (vs', ssq')) /\
    Forall2 same_dual
      [(7%Z, ({| vs_x := Some [5]; vs_xbar := [5]; vs_y := [3];
                 vs_rho := 1 |}, zero_baseline))] vs' /\
    r_primal ssq' = 0 /\ r_dual ssq' = 0.
Proof.
  assert (Hret : exists l r,
    update_keys (default_opts false) 2 {[7%Z := [5]]}
      [(7%Z, ({| vs_x := Some [5]; vs_xbar := [5]; vs_y := [3];
                 vs_rho := 1 |}, zero_baseline))] ssq_zero = (l, Ok r)).
  { apply update_keys_returns; simpl; try lra; [discriminate|].
    constructor; [|constructor]. split; [|split].
    - simpl. eauto.
    - simpl. rewrite lookup_singleton_eq. eauto.
    - unfold positive_rho. simpl. lra. }
  destruct Hret as (l & [vs' ssq'] & E).
  exists l, vs', ssq'. split; [exact E|].
  apply (round_at_consensus _ _ _ _ _ _ _ _) in E; [exact E|].
  constructor; [|constructor]. exists [5]. simpl.
  rewrite lookup_singleton_eq. auto.
Defined.

(** ** Rounds that fail *)

Lemma update_keys_plain_returns (opts : options) (i : Z) (xbars : gmap Z vec)
    (vs : list (Z * (var_state * baseline))) (ssq : residual_report) :
  spectral opts = false -> Forall (updatable xbars) vs ->
  exists r, update_keys opts i xbars vs ssq = ([], Ok r).
Proof.
  intros Hsp. revert ssq.
  induction vs as [|[key [s o]] rest IH]; intros ssq Hall.
  - eexists. reflexivity.
  - apply Forall_cons in Hall as [([x Hx] & [xbar_new Hk]) Hall].
    simpl in Hx, Hk. cbn [update_keys]. rewrite Hk.
    rewrite (update_key_plain opts i xbar_new s o ssq x (or_introl Hsp) Hx).
    unfold bind at 1. cbn [ret fst snd app].
    destruct (IH {| r_primal := r_primal ssq + np_sum (vsquare (vsub x xbar_new));
                r_dual := r_dual ssq
                  + np_sum (vsquare (vscale (vs_rho s)
                                       (vsub (vs_xbar s) xbar_new)));
                r_x := r_x ssq + np_sum (vsquare x);
                r_xbar := r_xbar ssq + np_sum (vsquare xbar_new);
                r_y := r_y ssq
                  + np_sum (vsquare (vadd (vs_y s)
                                       (vscale (vs_rho s)
                                          (vsub x xbar_new)))) |} Hall)
      as ([rest' ssq'] & E).
    rewrite E. eexists. reflexivity.
Qed.

Lemma update_keys_plain_raises (opts : options) (i : Z) (xbars : gmap Z vec)
    (pre post : list (Z * (var_state * baseline)))
    (e : Z * (var_state * baseline)) (ssq : residual_report) :
  spectral opts = false -> Forall (updatable xbars) pre ->
  ~ updatable xbars e ->
  update_keys opts i xbars (pre ++ e :: post) ssq =
    ([], Raise (match xbars !! fst e with
                | None => KeyError
                | Some _ => TypeError
                end)).
Proof.
  intros Hsp Hpre Hbad. revert ssq.
  induction pre as [|[key [s o]] pre IH]; intros ssq.
  - destruct e as [key [s o]]. cbn [app update_keys fst].
    destruct (xbars !! key) as [xbar_new|] eqn:Hk; [|reflexivity].
    destruct (vs_x s) as [x|] eqn:Hx.
    + exfalso. apply Hbad. split; simpl; [rewrite Hx|rewrite Hk]; eauto.
    + now rewrite (update_key_raises_unsolved opts i xbar_new s o ssq Hx).
  - apply Forall_cons in Hpre as [([x Hx] & [xbar_new Hk]) Hpre].
    simpl in Hx, Hk. cbn [app update_keys]. rewrite Hk.
    rewrite (update_key_plain opts i xbar_new s o ssq x (or_introl Hsp) Hx).
    unfold bind at 1. rewrite (IH Hpre). reflexivity.
Qed.

(** X9.  Without the spectral option a round fails only on a variable it
    cannot update, and then with the error of the first such variable in
    the order of the keys: the round goes through, with nothing logged,
    when every variable is solved and has a consensus value; otherwise it
    raises KeyError when the first variable that is not has no consensus
    value, and TypeError when it has one but is unsolved. *)
Theorem plain_round_errors (opts : options) (i : Z) (xbars : gmap Z vec)
    (ssq : residual_report) :
  spectral opts = false ->
  (forall vs, Forall (updatable xbars) vs ->
     exists r, update_keys opts i xbars vs ssq = ([], Ok r)) /\
  (forall pre e post,
     Forall (updatable xbars) pre -> ~ updatable xbars e ->
     update_keys opts i xbars (pre ++ e :: post) ssq =
       ([], Raise (match xbars !! fst e with
                   | None => KeyError
                   | Some _ => TypeError
                   end))).
Proof.
  intros Hsp. split.
  - intros vs Hall. now apply update_keys_plain_returns.
  - intros pre e post Hpre Hbad. now apply update_keys_plain_raises.
Qed.

Lemma plain_round_errors_witness :
  update_keys {| value_shares := false; spectral := false; Tf := 2;
                 opt_eps := 2 / 10; opt_C := 10000000000 |} 1 {[7%Z := [1]]}
    ([(7%Z, (solved_at_5, zero_baseline))]
     ++ (8%Z, (solved_at_5, zero_baseline)) :: []) ssq_zero
  = ([], Raise KeyError).
Proof.
  refine (proj2 (plain_round_errors
            {| value_shares := false; spectral := false; Tf := 2;
               opt_eps := 2 / 10; opt_C := 10000000000 |} 1 {[7%Z := [1]]}
            ssq_zero eq_refl)
          [(7%Z, (solved_at_5, zero_baseline))]
          (8%Z, (solved_at_5, zero_baseline)) [] _ _).
  - constructor; [|constructor]. split; simpl; [eauto|].
    rewrite lookup_singleton_eq. eauto.
  - intros [_ [v Hv]]. simpl in Hv.
    rewrite lookup_singleton_ne in Hv by discriminate. discriminate.
Defined.

(** ** The estimators of the spectral step size *)








(** ** Deltas that are exact multiples *)













(** ** More on the aggregator *)

Lemma merge_items_key_error (rho : gmap Z R) (xvals : gmap Z vec)
    (a : merged) (key : Z) :
  is_Some (xvals !! key) -> rho !! key = None ->
  map_fold (merge_item rho) (Ok a) xvals = Raise KeyError.
Proof.
  intros Hk Hrho.
  cut ((map_fold (merge_item rho) (Ok a) xvals = Raise KeyError \/
        exists a', map_fold (merge_item rho) (Ok a) xvals = Ok a') /\
       ((exists key, is_Some (xvals !! key) /\ rho !! key = None) ->
        map_fold (merge_item rho) (Ok a) xvals = Raise KeyError)).
  { intros [_ H]. apply H. eauto. }
  apply (map_fold_weak_ind (fun r (m : gmap Z vec) =>
    (r = Raise KeyError \/ exists a', r = Ok a') /\
    ((exists key, is_Some (m !! key) /\ rho !! key = None) ->
     r = Raise KeyError))).
  - split; [eauto|]. intros (k & [v Hv] & _). now rewrite lookup_empty in Hv.
  - intros i x m r Hi [Hshape IH].
    assert (Hstep : merge_item rho i x r = Raise KeyError \/
                    exists a', merge_item rho i x r = Ok a').
    { destruct Hshape as [->|[[xm rs] ->]]; [now left|]. simpl.
      destruct (rho !! i); eauto. }
    split; [exact Hstep|].
    intros (k & Hk' & Hr).
    destruct (decide (i = k)) as [->|Hne].
    + destruct Hshape as [->|[[xm rs] ->]]; [reflexivity|].
      simpl. now rewrite Hr.
    + rewrite lookup_insert_ne in Hk' by assumption.
      rewrite IH by eauto. reflexivity.
Qed.

(** X15.  A report that gives a value for a variable without a step size
    for it makes [x_average] raise KeyError, provided the reports before
    it are feasible and complete; the reports after it are not looked
    at. *)
Theorem x_average_key_error (pre post : list report) (st : status)
    (rho : gmap Z R) (xvals : gmap Z vec) (key : Z) :
  Forall feasible pre -> Forall covered pre -> st ∉ INF_OR_UNB ->
  is_Some (xvals !! key) -> rho !! key = None ->
  x_average (pre ++ (st, rho, xvals) :: post) = Raise KeyError.
Proof.
  intros Hf Hc Hst Hk Hrho. unfold x_average.
  rewrite foldl_app.
  destruct (merge_reports_ok pre [] (∅, ∅) merged_ok_empty Hf Hc)
    as (acc & E & _).
  rewrite E. cbn [foldl].
  assert (E1 : merge_report (Ok acc) (st, rho, xvals) = Raise KeyError).
  { simpl. rewrite bool_decide_eq_false_2 by assumption.
    now apply (merge_items_key_error rho xvals acc key). }
  rewrite E1, merge_report_raise. reflexivity.
Qed.

Lemma x_average_key_error_witness :
  x_average ([(optimal, {[7%Z := 1]}, {[7%Z := [5]]})]
             ++ (optimal, ∅, {[7%Z := [1]]}) :: []) = Raise KeyError.
Proof.
  apply (x_average_key_error _ _ _ _ _ 7%Z).
  - constructor; [|constructor]. exact optimal_feasible.
  - constructor; [|constructor]. apply singleton_covered.
  - exact optimal_feasible.
  - rewrite lookup_singleton_eq. eauto.
  - apply lookup_empty.
Defined.

Lemma vadd_comm (a b : vec) : vadd a b = vadd b a.
Proof.
  unfold vadd. revert b. induction a as [|x a IH]; intros [|y b]; simpl;
    try reflexivity.
  rewrite IH. f_equal. lra.
Qed.

Lemma vadd_assoc (a b c : vec) : vadd (vadd a b) c = vadd a (vadd b c).
Proof.
  unfold vadd. revert b c.
  induction a as [|x a IH]; intros [|y b] [|z c]; simpl; try reflexivity.
  rewrite IH. f_equal. lra.
Qed.

Lemma foldl_vadd_perm (l l' : list vec) :
  l ≡ₚ l' -> forall x, foldl vadd x l = foldl vadd x l'.
Proof.
  induction 1 as [|a l l' _ IH|a b l|l l' l'' _ IH1 _ IH2]; intros x; simpl.
  - reflexivity.
  - apply IH.
  - f_equal. rewrite !vadd_assoc. f_equal. apply vadd_comm.
  - now rewrite IH1.
Qed.

Lemma colsum_perm (l l' : list vec) : l ≡ₚ l' -> colsum l = colsum l'.
Proof.
  induction 1 as [|a l l' Hp _|a b l|l l' l'' _ IH1 _ IH2]; simpl.
  - reflexivity.
  - now apply foldl_vadd_perm.
  - f_equal. apply vadd_comm.
  - now rewrite IH1.
Qed.

Lemma np_sum_perm (l l' : list R) : l ≡ₚ l' -> np_sum l = np_sum l'.
Proof.
  unfold np_sum.
  induction 1 as [|a l l' _ IH|a b l|l l' l'' _ IH1 _ IH2]; simpl; lra.
Qed.

Lemma reported_perm (key : Z) (rs rs' : list report) :
  rs ≡ₚ rs' -> reported key rs ≡ₚ reported key rs'.
Proof.
  unfold reported.
  induction 1 as [|a l l' _ IH|a b l|l l' l'' _ IH1 _ IH2]; simpl.
  - reflexivity.
  - destruct a as [[st rho] xvals].
    destruct (xvals !! key), (rho !! key); simpl; try exact IH.
    now constructor.
  - destruct a as [[st rho] xvals], b as [[st' rho'] xvals'].
    destruct (xvals !! key), (rho !! key), (xvals' !! key), (rho' !! key);
      simpl; try reflexivity.
    apply perm_swap.
  - etransitivity; [exact IH1|exact IH2].
Qed.

Lemma weighted_sum_perm (l l' : list (R * vec)) :
  l ≡ₚ l' ->
  match l with
  | [] => None
  | _ => Some (map (fun s => xdiv (Fin s) (Fin (np_sum (map fst l))))
                   (colsum (map (fun sv => vscale (fst sv) (snd sv)) l)))
  end =
  match l' with
  | [] => None
  | _ => Some (map (fun s => xdiv (Fin s) (Fin (np_sum (map fst l'))))
                   (colsum (map (fun sv => vscale (fst sv) (snd sv)) l')))
  end.
Proof.
  intros Hp.
  assert (E1 : np_sum (map fst l) = np_sum (map fst l'))
    by (apply np_sum_perm; now apply Permutation_map).
  assert (E2 : colsum (map (fun sv => vscale (fst sv) (snd sv)) l) =
               colsum (map (fun sv => vscale (fst sv) (snd sv)) l'))
    by (apply colsum_perm; now apply Permutation_map).
  destruct l as [|a l], l' as [|a' l'].
  - reflexivity.
  - now apply Permutation_nil_cons in Hp.
  - symmetry in Hp. now apply Permutation_nil_cons in Hp.
  - now rewrite E1, E2.
Qed.

(** X16.  The consensus does not depend on the order in which the
    workers' reports are gathered (sums taken over the reals): for
    complete reports, [x_average] returns the same dictionary, or raises
    the same error, on every permutation of the list. *)
Theorem x_average_permutation (rs rs' : list report) :
  rs ≡ₚ rs' -> Forall covered rs -> x_average rs = x_average rs'.
Proof.
  intros Hp Hc.
  assert (Hc' : Forall covered rs') by now rewrite <- Hp.
  destruct (feasible_or_not rs) as [Hf|Hex].
  - assert (Hf' : Forall feasible rs') by now rewrite <- Hp.
    destruct (x_average_ok rs Hf Hc) as (xbars & -> & H).
    destruct (x_average_ok rs' Hf' Hc') as (xbars' & -> & H').
    f_equal. apply map_eq. intros key. rewrite H, H'.
    pose proof (weighted_sum_perm _ _ (reported_perm key rs rs' Hp)) as Hw.
    destruct (reported key rs), (reported key rs'); exact Hw.
  - assert (Hex' : Exists inf_or_unb rs') by now rewrite <- Hp.
    unfold x_average.
    now rewrite (merge_reports_raise rs _ Hc Hex),
                (merge_reports_raise rs' _ Hc' Hex').
Qed.

Lemma x_average_permutation_witness :
  x_average two_workers =
  x_average [(optimal, {[7%Z := 1]}, {[7%Z := [1]]});
             (optimal, {[7%Z := 1]}, {[7%Z := [5]]})].
Proof.
  apply x_average_permutation.
  - apply perm_swap.
  - repeat constructor; apply singleton_covered.
Defined.

Lemma vscale_plus (a b : R) (v : vec) :
  vadd (vscale a v) (vscale b v) = vscale (a + b) v.
Proof.
  unfold vadd, vscale. induction v as [|x v IH]; simpl; [reflexivity|].
  rewrite IH. f_equal. lra.
Qed.

Lemma foldl_vadd_same (v : vec) (rest : list (R * vec)) (a : R) :
  Forall (fun sv => snd sv = v) rest ->
  foldl vadd (vscale a v) (map (fun sv => vscale (fst sv) (snd sv)) rest) =
  vscale (a + np_sum (map fst rest)) v.
Proof.
  revert a. induction rest as [|[s w] rest IH]; intros a Hall; simpl.
  - now rewrite Rplus_0_r.
  - apply Forall_cons in Hall as [Hw Hall]. simpl in Hw. subst w.
    rewrite vscale_plus, IH by assumption. f_equal. lra.
Qed.

Lemma unscale (S : R) (v : vec) :
  S <> 0 -> map (fun s => Fin (s / S)) (vscale S v) = map Fin v.
Proof.
  intros HS. unfold vscale. rewrite map_map. apply map_ext.
  intros x. f_equal. field. exact HS.
Qed.

(** X17.  Over the reals (products, sums and the quotient taken without
    rounding), agreement is kept: when every worker that reports a
    variable reports the same value for it, the consensus value of the
    variable is that value, whatever the (positive) step sizes of the
    workers are.  In binary64 the consensus is that value up to
    rounding. *)
Theorem x_average_agreement (prox_res : list report) (key : Z) (v : vec) :
  Forall feasible prox_res -> Forall covered prox_res ->
  Forall positive_steps prox_res ->
  Exists (reports_key key) prox_res ->
  Forall (fun sv => snd sv = v) (reported key prox_res) ->
  exists xbars,
    x_average prox_res = Ok xbars /\ xbars !! key = Some (map Fin v).
Proof.
  intros Hf Hc Hpos Hex Hsame.
  destruct (x_average_ok prox_res Hf Hc) as (xbars & E & H).
  exists xbars. split; [exact E|]. rewrite (H key).
  pose proof (proj2 (reported_nonempty key prox_res Hc) Hex) as Hne.
  pose proof (reported_positive key prox_res Hpos) as Hp.
  pose proof (np_sum_positive (map fst (reported key prox_res))) as HS.
  destruct (reported key prox_res) as [|[s w] rest]; [contradiction|].
  f_equal.
  assert (HS' : 0 < np_sum (map fst ((s, w) :: rest))).
  { apply HS; [discriminate|]. apply Forall_map. exact Hp. }
  apply Forall_cons in Hsame as [Hw Hrest]. simpl in Hw. subst w.
  cbn [map colsum fst snd]. rewrite foldl_vadd_same by assumption.
  cbn [map fst np_sum foldr] in HS'. cbn [np_sum foldr].
  rewrite <- (unscale (s + foldr Rplus 0 (map fst rest)) v) by lra.
  apply map_ext. intros x. apply xdiv_finite. lra.
Qed.

Lemma x_average_agreement_witness :
  exists xbars,
    x_average [(optimal, {[7%Z := 1]}, {[7%Z := [5]]});
               (optimal, {[7%Z := 3]}, {[7%Z := [5]]})] = Ok xbars /\
    xbars !! 7%Z = Some (map Fin [5]).
Proof.
  apply x_average_agreement.
  - repeat constructor; exact optimal_feasible.
  - repeat constructor; apply singleton_covered.
  - repeat constructor; apply singleton_positive_steps; lra.
  - apply Exists_cons_hd. simpl. rewrite lookup_singleton_eq. eauto.
  - unfold reported. cbn [omap list_omap]. rewrite !lookup_singleton_eq.
    repeat constructor.
Defined.

(** ** More on the stopping evaluator *)

Lemma res_stop_flag (res_ssq : list residual_report) (eps : R) :
  snd (res_stop res_ssq eps) = true <->
  np_sum (map r_primal res_ssq)
    <= eps * Rmax (np_sum (map r_x res_ssq)) (np_sum (map r_xbar res_ssq))
       + eps_fl /\
  np_sum (map r_dual res_ssq) <= eps * np_sum (map r_y res_ssq) + eps_fl.
Proof.
  unfold res_stop. cbn [snd]. rewrite andb_true_iff, !Rleb_true, pymaxR_Rmax.
  reflexivity.
Qed.

Lemma np_sum_nonneg (l : list R) : Forall (fun s => 0 <= s) l -> 0 <= np_sum l.
Proof.
  unfold np_sum. induction 1 as [|s l Hs _ IH]; simpl; lra.
Qed.

(** X18.  The stopping flag and the residuals do not depend on the order
    of the workers' residual reports (sums taken over the reals). *)
Theorem res_stop_permutation (rs rs' : list residual_report) (eps : R) :
  rs ≡ₚ rs' -> res_stop rs eps = res_stop rs' eps.
Proof.
  intros Hp. unfold res_stop.
  rewrite (np_sum_perm (map r_primal rs) (map r_primal rs'))
    by now apply Permutation_map.
  rewrite (np_sum_perm (map r_dual rs) (map r_dual rs'))
    by now apply Permutation_map.
  rewrite (np_sum_perm (map r_x rs) (map r_x rs'))
    by now apply Permutation_map.
  rewrite (np_sum_perm (map r_xbar rs) (map r_xbar rs'))
    by now apply Permutation_map.
  rewrite (np_sum_perm (map r_y rs) (map r_y rs'))
    by now apply Permutation_map.
  reflexivity.
Qed.

Lemma res_stop_permutation_witness :
  res_stop [ssq_zero; {| r_primal := 1; r_dual := 2; r_x := 3; r_xbar := 4;
                         r_y := 5 |}] 1 =
  res_stop [{| r_primal := 1; r_dual := 2; r_x := 3; r_xbar := 4;
               r_y := 5 |}; ssq_zero] 1.
Proof. apply res_stop_permutation, perm_swap. Defined.

(** X19.  A looser tolerance never delays the stop: when the sums of
    squares of x, xbar and y in the reports are not negative, as sums of
    squares are, a list of reports that stops the run at a tolerance
    stops it at every larger one. *)
Theorem res_stop_tolerance_monotone (res_ssq : list residual_report)
    (eps eps' : R) :
  Forall (fun r => 0 <= r_x r /\ 0 <= r_xbar r /\ 0 <= r_y r) res_ssq ->
  eps <= eps' ->
  snd (res_stop res_ssq eps) = true -> snd (res_stop res_ssq eps') = true.
Proof.
  intros Hall Heps. rewrite !res_stop_flag. intros [Hp Hd].
  assert (Hx : 0 <= np_sum (map r_x res_ssq)).
  { apply np_sum_nonneg, Forall_map. eapply Forall_impl; [exact Hall|].
    simpl. tauto. }
  assert (Hy : 0 <= np_sum (map r_y res_ssq)).
  { apply np_sum_nonneg, Forall_map. eapply Forall_impl; [exact Hall|].
    simpl. tauto. }
  pose proof (Rmax_l (np_sum (map r_x res_ssq))
                (np_sum (map r_xbar res_ssq))) as Hm.
  split; nra.
Qed.

Lemma res_stop_tolerance_monotone_witness :
  snd (res_stop [{| r_primal := 1; r_dual := 2; r_x := 3; r_xbar := 4;
                    r_y := 5 |}] 2) = true.
Proof.
  apply (res_stop_tolerance_monotone _ 1 2).
  - repeat constructor; simpl; lra.
  - lra.
  - apply res_stop_flag. unfold np_sum. simpl. pose proof eps_fl_pos.
    unfold Rmax. destruct (Rle_dec (3 + 0) (4 + 0)); lra.
Defined.

(** ** The coordinator's loop *)

Lemma consensus_loop_returned (eps : R) (recv : inbox) (n : nat) :
  forall (i : nat) (last : option (gmap Z (list xreal)))
         (resid : list (R * R)) (out : run_output),
  consensus_loop n i eps recv last resid = Returned out ->
  exists m : nat,
    (m <= n)%nat /\ out_num_iters out = (i + m)%nat /\
    out_residuals out = resid ++ map (round_resid eps recv) (seq i m) /\
    (forall j, (i <= j)%nat -> (j + 1 < i + m)%nat ->
               round_flag eps recv j = false) /\
    ((m < n)%nat -> round_flag eps recv (i + m - 1) = true) /\
    (m = 0%nat -> n = 0%nat /\ last = Some (out_xbars out)) /\
    ((0 < m)%nat -> x_average (fst (recv (i + m - 1)%nat)) = Ok (out_xbars out)).
Proof.
  induction n as [|n IH]; intros i last resid out E.
  - simpl in E. destruct last as [xbars|]; [|discriminate].
    injection E as <-. exists 0%nat. simpl. rewrite app_nil_r.
    repeat split; try lia; intros; lia.
  - cbn [consensus_loop] in E.
    destruct (x_average (fst (recv i))) as [xbars|e] eqn:Ex; [|discriminate].
    destruct (res_stop (snd (recv i)) eps) as [[primal dual] stopped] eqn:Er.
    destruct stopped.
    + injection E as <-. exists 1%nat. simpl.
      replace (i + 1 - 1)%nat with i by lia.
      unfold round_resid, round_flag. rewrite Er. simpl.
      repeat split; try lia; try (intros; lia); try reflexivity.
      intros _. exact Ex.
    + apply IH in E as (m & Hm & Hn & Hr & Hfl & Hlast & H0 & Hx).
      exists (S m). replace (i + S m - 1)%nat with (i + m)%nat by lia.
      split; [lia|]. split; [lia|]. split.
      { rewrite Hr, <- app_assoc. simpl. unfold round_resid at 2.
        now rewrite Er. }
      split.
      { intros j Hj1 Hj2. destruct (decide (j = i)) as [->|Hne].
        - unfold round_flag. now rewrite Er.
        - apply Hfl; lia. }
      split.
      { intros Hlt. destruct m as [|m'].
        - destruct H0 as [Hn0 _]; [reflexivity|]. lia.
        - replace (i + S m')%nat with (S i + S m' - 1)%nat by lia.
          apply Hlast. lia. }
      split; [intros; lia|]. intros _.
      destruct m as [|m'].
      * destruct H0 as [_ Hl]; [reflexivity|]. injection Hl as <-.
        replace (i + 0)%nat with i by lia. exact Ex.
      * replace (i + S m')%nat with (S i + S m' - 1)%nat by lia.
        apply Hx. lia.
Qed.

Lemma consensus_loop_stops (eps : R) (recv : inbox) (n : nat) :
  forall (i m : nat) (last : option (gmap Z (list xreal)))
         (resid : list (R * R)),
  (m < n)%nat ->
  (forall j, (i <= j <= i + m)%nat ->
             exists xb, x_average (fst (recv j)) = Ok xb) ->
  (forall j, (i <= j < i + m)%nat -> round_flag eps recv j = false) ->
  round_flag eps recv (i + m) = true ->
  exists out,
    consensus_loop n i eps recv last resid = Returned out /\
    out_num_iters out = S (i + m).
Proof.
  induction n as [|n IH]; intros i m last resid Hm Hok Hfl Hstop; [lia|].
  cbn [consensus_loop].
  destruct (Hok i) as [xb ->]; [lia|].
  destruct (res_stop (snd (recv i)) eps) as [[primal dual] stopped] eqn:Er.
  destruct m as [|m].
  - unfold round_flag in Hstop. replace (i + 0)%nat with i in Hstop by lia.
    rewrite Er in Hstop. simpl in Hstop. subst stopped.
    eexists. split; [reflexivity|]. simpl. lia.
  - assert (Hi : round_flag eps recv i = false) by (apply Hfl; lia).
    unfold round_flag in Hi. rewrite Er in Hi. simpl in Hi. subst stopped.
    destruct (IH (S i) m (Some xb) (resid ++ [(primal, dual)]))
      as (out & E & Hn).
    + lia.
    + intros j Hj. apply Hok. lia.
    + intros j Hj. apply Hfl. lia.
    + replace (S i + m)%nat with (i + S m)%nat by lia. exact Hstop.
    + exists out. split; [exact E|]. lia.
Qed.

Lemma consensus_loop_exhausts (eps : R) (recv : inbox) (n : nat) :
  forall (i : nat) (last : option (gmap Z (list xreal)))
         (resid : list (R * R)),
  (0 < n)%nat \/ is_Some last ->
  (forall j, (i <= j < i + n)%nat ->
             exists xb, x_average (fst (recv j)) = Ok xb) ->
  (forall j, (i <= j < i + n)%nat -> round_flag eps recv j = false) ->
  exists out,
    consensus_loop n i eps recv last resid = Returned out /\
    out_num_iters out = (i + n)%nat.
Proof.
  induction n as [|n IH]; intros i last resid Hn Hok Hfl.
  - destruct Hn as [Hn|[xb ->]]; [lia|]. simpl.
    eexists. split; [reflexivity|]. simpl. lia.
  - cbn [consensus_loop].
    destruct (Hok i) as [xb ->]; [lia|].
    destruct (res_stop (snd (recv i)) eps) as [[primal dual] stopped] eqn:Er.
    assert (Hi : round_flag eps recv i = false) by (apply Hfl; lia).
    unfold round_flag in Hi. rewrite Er in Hi. simpl in Hi. subst stopped.
    destruct (IH (S i) (Some xb) (resid ++ [(primal, dual)]))
      as (out & E & Hout).
    + right. eauto.
    + intros j Hj. apply Hok. lia.
    + intros j Hj. apply Hfl. lia.
    + exists out. split; [exact E|]. lia.
Qed.

Lemma consensus_loop_raises (eps : R) (recv : inbox) (e : exn) (n : nat) :
  forall (i m : nat) (last : option (gmap Z (list xreal)))
         (resid : list (R * R)),
  (m < n)%nat ->
  (forall j, (i <= j < i + m)%nat ->
             exists xb, x_average (fst (recv j)) = Ok xb) ->
  (forall j, (i <= j < i + m)%nat -> round_flag eps recv j = false) ->
  x_average (fst (recv (i + m)%nat)) = Raise e ->
  consensus_loop n i eps recv last resid = Raised e.
Proof.
  induction n as [|n IH]; intros i m last resid Hm Hok Hfl Hraise; [lia|].
  cbn [consensus_loop].
  destruct m as [|m].
  - replace (i + 0)%nat with i in Hraise by lia. now rewrite Hraise.
  - destruct (Hok i) as [xb ->]; [lia|].
    destruct (res_stop (snd (recv i)) eps) as [[primal dual] stopped] eqn:Er.
    assert (Hi : round_flag eps recv i = false) by (apply Hfl; lia).
    unfold round_flag in Hi. rewrite Er in Hi. simpl in Hi. subst stopped.
    apply (IH (S i) m).
    + lia.
    + intros j Hj. apply Hok. lia.
    + intros j Hj. apply Hfl. lia.
    + replace (S i + m)%nat with (i + S m)%nat by lia. exact Hraise.
Qed.

Lemma consensus_loop_unbound (eps : R) (recv : inbox) (n : nat) :
  forall (i : nat) (last : option (gmap Z (list xreal)))
         (resid : list (R * R)),
  consensus_loop n i eps recv last resid = UnboundLocal ->
  n = 0%nat /\ last = None.
Proof.
  induction n as [|n IH]; intros i last resid E.
  - simpl in E. destruct last; [discriminate|]. auto.
  - cbn [consensus_loop] in E.
    destruct (x_average (fst (recv i))) as [xbars|e]; [|discriminate].
    destruct (res_stop (snd (recv i)) eps) as [[primal dual] stopped].
    destruct stopped; [discriminate|].
    apply IH in E as [_ E]. discriminate.
Qed.

(** X20.  What [consensus] returns, for any messages: at least one and at
    most [max_iter] iterations are counted; there is one row of residuals
    per iteration, the pair that [res_stop] computed in that round; the
    consensus returned is the average of the last round that was run;
    every round before the last had a false stopping flag, and when fewer
    than [max_iter] rounds were run the flag of the last one was true. *)
Theorem consensus_result (max_iter : Z) (eps : R) (recv : inbox)
    (out : run_output) :
  consensus max_iter eps recv = Returned out ->
  (1 <= out_num_iters out <= Z.to_nat max_iter)%nat /\
  length (out_residuals out) = out_num_iters out /\
  out_residuals out =
    map (round_resid eps recv) (seq 0 (out_num_iters out)) /\
  x_average (fst (recv (out_num_iters out - 1)%nat)) = Ok (out_xbars out) /\
  (forall j, (j + 1 < out_num_iters out)%nat ->
             round_flag eps recv j = false) /\
  ((out_num_iters out < Z.to_nat max_iter)%nat ->
   round_flag eps recv (out_num_iters out - 1) = true).
Proof.
  unfold consensus. destruct (max_iter <? 0)%Z; [discriminate|].
  intros E.
  apply consensus_loop_returned in E
    as (m & Hm & Hn & Hr & Hfl & Hlast & H0 & Hx).
  simpl in Hn, Hr, Hfl, Hlast, Hx. rewrite Hn.
  assert (Hpos : (0 < m)%nat).
  { destruct m; [|lia]. destruct H0 as [_ H0]; [reflexivity|]. discriminate. }
  split; [lia|]. split; [now rewrite Hr, length_map, length_seq|].
  split; [exact Hr|]. split; [now apply Hx|].
  split; [intros j Hj; apply Hfl; lia|exact Hlast].
Qed.

Lemma example_run_returns :
  exists out,
    consensus 1 1 (fun _ => (two_workers, [ssq_zero])) = Returned out.
Proof.
  destruct two_workers_consensus as (xb & E & _).
  change (consensus 1 1 (fun _ => (two_workers, [ssq_zero])))
    with (consensus_loop 1 0 1 (fun _ => (two_workers, [ssq_zero])) None []).
  cbn [consensus_loop]. cbv beta. cbn [fst snd]. rewrite E.
  destruct (res_stop [ssq_zero] 1) as [[primal dual] stopped].
  destruct stopped; eexists; reflexivity.
Qed.

Lemma consensus_result_witness :
  exists out,
    consensus 1 1 (fun _ => (two_workers, [ssq_zero])) = Returned out /\
    (1 <= out_num_iters out <= Z.to_nat 1)%nat /\
    length (out_residuals out) = out_num_iters out.
Proof.
  destruct example_run_returns as (out & E).
  exists out. split; [exact E|].
  destruct (consensus_result 1 1 _ out E) as (H1 & H2 & _).
  split; assumption.
Defined.

(** X21.  [consensus] returns, and counts the rounds up to the first
    true stopping flag: when the reports of rounds 0 to [m] can be
    averaged, the flags of the rounds before [m] are false and the flag
    of round [m] is true, with [m] below [max_iter], the run returns with
    [m + 1] iterations; when all [max_iter] rounds can be averaged and no
    flag is true, it returns with [max_iter] iterations. *)
Theorem consensus_returns (max_iter : Z) (eps : R) (recv : inbox) :
  (forall m : nat,
     (Z.of_nat m < max_iter)%Z ->
     (forall j, (j <= m)%nat -> exists xb, x_average (fst (recv j)) = Ok xb) ->
     (forall j, (j < m)%nat -> round_flag eps recv j = false) ->
     round_flag eps recv m = true ->
     exists out,
       consensus max_iter eps recv = Returned out /\
       out_num_iters out = S m) /\
  ((0 < max_iter)%Z ->
   (forall j, (j < Z.to_nat max_iter)%nat ->
      (exists xb, x_average (fst (recv j)) = Ok xb) /\
      round_flag eps recv j = false) ->
   exists out,
     consensus max_iter eps recv = Returned out /\
     out_num_iters out = Z.to_nat max_iter).
Proof.
  split.
  - intros m Hm Hok Hfl Hstop. unfold consensus.
    destruct (max_iter <? 0)%Z eqn:Hneg; [lia|].
    destruct (consensus_loop_stops eps recv (Z.to_nat max_iter) 0 m None [])
      as (out & E & Hn).
    + lia.
    + intros j Hj. apply Hok. lia.
    + intros j Hj. apply Hfl. lia.
    + exact Hstop.
    + exists out. split; [exact E|]. exact Hn.
  - intros Hpos Hall. unfold consensus.
    destruct (max_iter <? 0)%Z eqn:Hneg; [lia|].
    destruct (consensus_loop_exhausts eps recv (Z.to_nat max_iter) 0 None [])
      as (out & E & Hn).
    + left. lia.
    + intros j Hj. apply Hall. lia.
    + intros j Hj. apply Hall. lia.
    + exists out. split; [exact E|]. exact Hn.
Qed.

Lemma consensus_returns_witness :
  exists out,
    consensus 5 1 (fun _ => (two_workers, [ssq_zero])) = Returned out /\
    out_num_iters out = 1%nat.
Proof.
  apply (proj1 (consensus_returns 5 1 (fun _ => (two_workers, [ssq_zero]))) 0%nat).
  - reflexivity.
  - intros j _. destruct two_workers_consensus as (xb & E & _). eauto.
  - intros j Hj. lia.
  - unfold round_flag. apply res_stop_flag. unfold np_sum. simpl.
    pose proof eps_fl_pos. unfold Rmax.
    destruct (Rle_dec (0 + 0) (0 + 0)); lra.
Defined.

(** X22.  [consensus] runs no round when [max_iter] is not positive, and
    then returns nothing: a negative [max_iter] raises the ValueError of
    [np.zeros], and reading [xbars] without a round is an
    UnboundLocalError, which happens exactly when [max_iter] is 0. *)
Theorem consensus_no_rounds (max_iter : Z) (eps : R) (recv : inbox) :
  ((max_iter < 0)%Z -> consensus max_iter eps recv = Raised ValueError) /\
  (consensus max_iter eps recv = UnboundLocal <-> max_iter = 0%Z).
Proof.
  unfold consensus. split; [|split].
  - intros H. destruct (max_iter <? 0)%Z eqn:E; [reflexivity|lia].
  - destruct (max_iter <? 0)%Z eqn:E; [discriminate|].
    intros H. apply consensus_loop_unbound in H as [H _]. lia.
  - intros ->. reflexivity.
Qed.

Lemma consensus_no_rounds_witness :
  consensus (-1) 1 (fun _ => (two_workers, [ssq_zero])) = Raised ValueError.
Proof.
  apply (proj1 (consensus_no_rounds (-1) 1 _)). lia.
Defined.

(** X23.  An error of the aggregator ends the run at that round: when the
    rounds before [m] were averaged and did not stop the run, an
    exception of [x_average] in round [m] is the outcome of [consensus];
    in particular one infeasible or unbounded status among complete
    reports ends the run with the RuntimeError, and nothing is
    returned. *)
Theorem consensus_aborts (max_iter : Z) (eps : R) (recv : inbox) (m : nat) :
  (Z.of_nat m < max_iter)%Z ->
  (forall j, (j < m)%nat ->
     (exists xb, x_average (fst (recv j)) = Ok xb) /\
     round_flag eps recv j = false) ->
  (forall e, x_average (fst (recv m)) = Raise e ->
             consensus max_iter eps recv = Raised e) /\
  (Forall covered (fst (recv m)) -> Exists inf_or_unb (fst (recv m)) ->
   consensus max_iter eps recv = Raised RuntimeError_infeasible).
Proof.
  intros Hm Hall.
  assert (Hgen : forall e, x_average (fst (recv m)) = Raise e ->
                           consensus max_iter eps recv = Raised e).
  { intros e He. unfold consensus.
    destruct (max_iter <? 0)%Z eqn:Hneg; [lia|].
    apply (consensus_loop_raises eps recv e (Z.to_nat max_iter) 0 m).
    - lia.
    - intros j Hj. apply Hall. lia.
    - intros j Hj. apply Hall. lia.
    - exact He. }
  split; [exact Hgen|].
  intros Hc Hex. apply Hgen. unfold x_average.
  now rewrite (merge_reports_raise _ _ Hc Hex).
Qed.

Lemma consensus_aborts_witness :
  consensus 5 1
    (fun _ => ([(infeasible, {[7%Z := 1]}, {[7%Z := [5]]})], [ssq_zero]))
  = Raised RuntimeError_infeasible.
Proof.
  refine (proj2 (consensus_aborts 5 1
            (fun _ => ([(infeasible, {[7%Z := 1]}, {[7%Z := [5]]})],
                       [ssq_zero])) 0%nat _ _) _ _).
  - reflexivity.
  - intros j Hj. lia.
  - repeat constructor. apply singleton_covered.
  - apply Exists_cons_hd. simpl. unfold INF_OR_UNB. apply elem_of_cons.
    now left.
Defined.

(** ** The fixed point stops the run *)

Lemma fixed_point_round_sums (opts : options) (i : Z) (xbars : gmap Z vec)
    (vs : list (Z * (var_state * baseline))) (ssq : residual_report)
    (l : list event) (vs' : list (Z * (var_state * baseline)))
    (ssq' : residual_report) :
  Forall (at_consensus xbars) vs ->
  update_keys opts i xbars vs ssq = (l, Ok (vs', ssq')) ->
  r_primal ssq' = r_primal ssq /\ r_dual ssq' = r_dual ssq.
Proof.
  revert ssq l vs' ssq'.
  induction vs as [|[key [s o]] rest IH]; intros ssq l vs' ssq' Hall E.
  - injection E as _ _ <-. split; reflexivity.
  - apply Forall_cons in Hall as [(x & Hx & Hk & Hxbar & Hlen) Hall].
    simpl in Hx, Hk, Hxbar, Hlen.
    apply update_keys_cons in E
      as (xbar_new & l1 & s1 & o1 & ssq1 & l2 & rest' & Hk' & E1 & E2 & _ & _).
    rewrite Hk in Hk'. injection Hk' as <-.
    destruct (IH _ _ _ _ Hall E2) as (Hp & Hd).
    destruct (update_key_fixed_point _ _ _ _ _ _ _ _ _ _ Hx Hxbar Hlen E1)
      as (_ & _ & Hp1 & Hd1).
    split; congruence.
Qed.

Lemma np_sum_zero (l : list R) : Forall (fun s => s = 0) l -> np_sum l = 0.
Proof.
  unfold np_sum. induction 1 as [|s l Hs _ IH]; simpl; lra.
Qed.

(** X24.  The fixed point stops the run.  When every worker went through
    its round with a consensus equal to the values it holds, the residual
    sums that the workers send have zero primal and dual parts, and
    [res_stop] returns zero residuals and a true stopping flag for every
    tolerance that is not negative. *)
Theorem stop_at_fixed_point (res_ssq : list residual_report) (eps : R) :
  Forall fixed_point_report res_ssq -> 0 <= eps ->
  exists primal dual,
    res_stop res_ssq eps = (primal, dual, true) /\ primal = 0 /\ dual = 0.
Proof.
  intros Hall Heps.
  assert (Hfields : Forall (fun r => r_primal r = 0 /\ r_dual r = 0 /\
                              0 <= r_x r /\ 0 <= r_y r) res_ssq).
  { eapply Forall_impl; [exact Hall|].
    intros r (opts & i & xbars & vs & l & vs' & Hfix & E).
    destruct (fixed_point_round_sums _ _ _ _ _ _ _ _ Hfix E) as (Hp & Hd).
    destruct (update_keys_ssq_le _ _ _ _ _ _ _ _ E) as (_ & _ & Hx & _ & Hy).
    simpl in Hp, Hd, Hx, Hy. auto. }
  assert (Hp : np_sum (map r_primal res_ssq) = 0).
  { apply np_sum_zero, Forall_map. eapply Forall_impl; [exact Hfields|].
    simpl. tauto. }
  assert (Hd : np_sum (map r_dual res_ssq) = 0).
  { apply np_sum_zero, Forall_map. eapply Forall_impl; [exact Hfields|].
    simpl. tauto. }
  assert (Hx : 0 <= np_sum (map r_x res_ssq)).
  { apply np_sum_nonneg, Forall_map. eapply Forall_impl; [exact Hfields|].
    simpl. tauto. }
  assert (Hy : 0 <= np_sum (map r_y res_ssq)).
  { apply np_sum_nonneg, Forall_map. eapply Forall_impl; [exact Hfields|].
    simpl. tauto. }
  assert (Hflag : snd (res_stop res_ssq eps) = true).
  { apply res_stop_flag. rewrite Hp, Hd. pose proof eps_fl_pos.
    pose proof (Rmax_l (np_sum (map r_x res_ssq))
                  (np_sum (map r_xbar res_ssq))).
    split; nra. }
  exists (np_sum (map r_primal res_ssq)), (np_sum (map r_dual res_ssq)).
  split; [|split; assumption].
  unfold res_stop in *. cbn [snd] in Hflag. now rewrite Hflag.
Qed.

Lemma stop_at_fixed_point_witness :
  exists r primal dual,
    fixed_point_report r /\
    res_stop [r] 0 = (primal, dual, true) /\ primal = 0 /\ dual = 0.
Proof.
  assert (Hret : exists l r,
    update_keys (default_opts false) 2 {[7%Z := [5]]}
      [(7%Z, ({| vs_x := Some [5]; vs_xbar := [5]; vs_y := [3];
                 vs_rho := 1 |}, zero_baseline))] ssq_zero = (l, Ok r)).
  { apply update_keys_returns; simpl; try lra; [discriminate|].
    constructor; [|constructor]. split; [|split].
    - simpl. eauto.
    - simpl. rewrite lookup_singleton_eq. eauto.
    - unfold positive_rho. simpl. lra. }
  destruct Hret as (l & [vs' r] & E).
  assert (Hfix : fixed_point_report r).
  { exists (default_opts false), 2%Z, {[7%Z := [5]]},
      [(7%Z, ({| vs_x := Some [5]; vs_xbar := [5]; vs_y := [3];
                 vs_rho := 1 |}, zero_baseline))], l, vs'.
    split; [|exact E].
    constructor; [|constructor]. exists [5]. simpl.
    rewrite lookup_singleton_eq. auto. }
  exists r.
  destruct (stop_at_fixed_point [r] 0) as (primal & dual & H).
  - constructor; [exact Hfix|constructor].
  - lra.
  - exists primal, dual. split; [exact Hfix|exact H].
Defined.

(** ** Only the ratios of the step sizes matter *)

Lemma np_sum_scale (c : R) (l : list R) :
  np_sum (map (Rmult c) l) = c * np_sum l.
Proof.
  unfold np_sum. induction l as [|x l IH]; simpl; [lra|]. rewrite IH. lra.
Qed.

Lemma vscale_vscale (c s : R) (v : vec) :
  vscale (c * s) v = vscale c (vscale s v).
Proof.
  unfold vscale. rewrite map_map. apply map_ext. intros x. lra.
Qed.

Lemma xdiv_scale (c x S : R) :
  0 < c -> xdiv (Fin (c * x)) (Fin (c * S)) = xdiv (Fin x) (Fin S).
Proof.
  intros Hc. simpl.
  destruct (Req_dec_T S 0) as [->|HS].
  - destruct (Req_dec_T (c * 0) 0) as [_|H]; [|lra].
    unfold inf_of_sign.
    destruct (Rlt_dec 0 (c * x)), (Rlt_dec 0 x); try reflexivity; try nra.
    destruct (Rlt_dec (c * x) 0), (Rlt_dec x 0); try reflexivity; nra.
  - destruct (Req_dec_T (c * S) 0) as [H|_]; [nra|].
    f_equal. field. split; lra.
Qed.

Lemma reported_scale_steps (c : R) (key : Z) (rs : list report) :
  reported key (map (scale_steps c) rs) =
  map (fun sv => (c * fst sv, snd sv)) (reported key rs).
Proof.
  unfold reported. induction rs as [|[[st rho] xvals] rs IH]; [reflexivity|].
  cbn [map omap list_omap scale_steps]. rewrite lookup_fmap.
  destruct (xvals !! key) as [v|], (rho !! key) as [s|]; simpl;
    try exact IH.
  f_equal. exact IH.
Qed.

Lemma scale_steps_covered (c : R) (rs : list report) :
  Forall covered rs -> Forall covered (map (scale_steps c) rs).
Proof.
  intros H. apply Forall_map. eapply Forall_impl; [exact H|].
  intros [[st rho] xvals] Hc key Hk. simpl. rewrite lookup_fmap.
  destruct (Hc key Hk) as [s ->]. simpl. eauto.
Qed.

Lemma weighted_sum_scale (c : R) (l : list (R * vec)) :
  0 < c ->
  map (fun s => xdiv (Fin s)
                  (Fin (np_sum (map fst
                          (map (fun sv : R * vec => (c * fst sv, snd sv)) l)))))
      (colsum (map (fun sv : R * vec => vscale (fst sv) (snd sv))
                 (map (fun sv : R * vec => (c * fst sv, snd sv)) l))) =
  map (fun s => xdiv (Fin s) (Fin (np_sum (map fst l))))
      (colsum (map (fun sv : R * vec => vscale (fst sv) (snd sv)) l)).
Proof.
  intros Hc.
  assert (E1 : map fst (map (fun sv : R * vec => (c * fst sv, snd sv)) l) =
               map (Rmult c) (map fst l)).
  { rewrite !map_map. apply map_ext. reflexivity. }
  assert (E2 : map (fun sv : R * vec => vscale (fst sv) (snd sv))
                 (map (fun sv : R * vec => (c * fst sv, snd sv)) l) =
               map (vscale c)
                 (map (fun sv : R * vec => vscale (fst sv) (snd sv)) l)).
  { rewrite !map_map. apply map_ext. intros sv. apply vscale_vscale. }
  rewrite E1, E2, np_sum_scale, colsum_vscale.
  unfold vscale at 1. rewrite map_map.
  apply map_ext. intros x. now apply xdiv_scale.
Qed.

(** X25.  Over the reals (products, sums and the quotient taken without
    rounding), only the ratios of the step sizes matter to the
    consensus: multiplying the step sizes of all reports by the same
    positive number changes neither the dictionary that [x_average]
    returns nor the error it raises.  In binary64 the entries of the
    dictionary agree up to rounding. *)
Theorem x_average_scale_invariant (c : R) (rs : list report) :
  0 < c -> Forall covered rs ->
  x_average (map (scale_steps c) rs) = x_average rs.
Proof.
  intros Hc Hcov.
  pose proof (scale_steps_covered c rs Hcov) as Hcov'.
  destruct (feasible_or_not rs) as [Hf|Hex].
  - assert (Hf' : Forall feasible (map (scale_steps c) rs)).
    { apply Forall_map. eapply Forall_impl; [exact Hf|].
      intros [[st rho] xvals] H. exact H. }
    destruct (x_average_ok rs Hf Hcov) as (xbars & -> & H).
    destruct (x_average_ok _ Hf' Hcov') as (xbars' & -> & H').
    f_equal. apply map_eq. intros key. rewrite H, H', reported_scale_steps.
    destruct (reported key rs) as [|p l]; [reflexivity|].
    apply (f_equal Some). exact (weighted_sum_scale c (p :: l) Hc).
  - assert (Hex' : Exists inf_or_unb (map (scale_steps c) rs)).
    { apply Exists_exists in Hex as (r & Hin & Hr).
      apply Exists_exists. exists (scale_steps c r). split.
      - apply list_elem_of_fmap. eauto.
      - destruct r as [[st rho] xvals]. exact Hr. }
    unfold x_average.
    now rewrite (merge_reports_raise _ _ Hcov Hex),
                (merge_reports_raise _ _ Hcov' Hex').
Qed.

Lemma x_average_scale_invariant_witness :
  x_average (map (scale_steps 2) two_workers) = x_average two_workers.
Proof.
  apply x_average_scale_invariant; [lra|].
  repeat constructor; apply singleton_covered.
Defined.
